(** * polymer-analyzer: the project query engine and the location remapper

    A shallow embedding of
      - [src/model/analysis-result.ts]: [MATCHES_EXTERNAL], [AnalysisResult]
        (constructor, [getDocument], [getByKind], [getById], [getOnlyAtId],
        [getFeatures], [getWarnings], [_getDocumentQueryOptions]), [addAll];
      - the inline-document module: [LocationOffset],
        [InlineDocumentDescriptor], [correctSourceLocation].

    Conventions of the embedding:
      - an object that is compared by reference ([Document], [Feature],
        [Warning]) carries its identity: a [DocRef] is the identity of a
        Document object, and the records of features and warnings hold an
        identity field, so that equality of values is equality of references;
      - a JavaScript [Set] is the list of its entries in insertion order,
        without duplicates; a [Map] is the list of its entries in insertion
        order;
      - an optional property or argument is an [option];
      - line and column indexes, which the source holds in [number], are
        integers ([Z]); on integers below 2^53 the additions of the source
        are exact;
      - a string is a [string]; of its characters the program only tells
        apart those of the literals it compares with. *)

From Stdlib Require Import List String Ascii ZArith Arith Bool Lia.
From Stdlib Require Import Relations Permutation DecimalString.
Import ListNotations.

Local Open Scope string_scope.
Local Open Scope list_scope.

Set Implicit Arguments.

(* ================================================================== *)
(** * Part I: the program *)
(* ================================================================== *)

(** ** JavaScript [Set], as far as the engine uses it *)

Section JSSet.

Context {A : Type}.
Variable eq_dec : forall x y : A, {x = y} + {x <> y}.

(** [set.add(x)]: appends [x] unless it is an entry already. *)
Definition Set_add (s : list A) (x : A) : list A :=
  if in_dec eq_dec x s then s else s ++ [x].

(** [set.delete(x)]. *)
Definition Set_delete (x : A) (s : list A) : list A := remove eq_dec x s.

(** [addAll(set1, set2)]: [for (const val of set2) set1.add(val)]. *)
Definition addAll (set1 set2 : list A) : list A :=
  fold_left Set_add set2 set1.

(** [new Set(iterable)]. *)
Definition Set_new (xs : list A) : list A := addAll [] xs.

End JSSet.

(** ** Source locations and their remapping *)

(** [SourceLocation] of the elements format: [{line, column, file?}]. *)
Record SourceLocation : Type := {
  line : Z;
  column : Z;
  file : option string
}.

(** [LocationOffset]: [{line, col, filename?}]; [offset_line] is its
    [line]. *)
Record LocationOffset : Type := {
  offset_line : Z;
  col : Z;
  filename : option string
}.

(** [InlineDocumentDescriptor<N>]; its constructor stores its four
    arguments. *)
Record InlineDocumentDescriptor (N : Type) : Type := {
  type : string;
  contents : string;
  node : N;
  locationOffset : LocationOffset
}.

(** Truthiness of a string: the empty string is falsy. *)
Definition truthy (s : string) : bool :=
  match s with EmptyString => false | String _ _ => true end.

(** [a || b] on optional strings: [a] when it is truthy, [b] otherwise. *)
Definition or_else (a b : option string) : option string :=
  match a with
  | Some s => if truthy s then Some s else b
  | None => b
  end.

(** [x != null]. *)
Definition not_null {T : Type} (x : option T) : bool :=
  match x with Some _ => true | None => false end.

(** [correctSourceLocation(sourceLocation, locationOffset?)].  Both arguments
    may be absent, which is the only way for an object to be falsy.  A [file]
    property assigned [undefined] reads like a missing one and is [None]. *)
Definition correctSourceLocation
    (sourceLocation : option SourceLocation)
    (locationOffset : option LocationOffset) : option SourceLocation :=
  match locationOffset, sourceLocation with
  | Some off, Some loc =>
      Some {| line := line loc + offset_line off;
              column := column loc + (if (line loc =? 0)%Z then col off else 0);
              file := if not_null (filename off) || not_null (file loc)
                      then or_else (filename off) (file loc)
                      else None |}
  | _, _ => sourceLocation
  end.

(** ** The regular expression of external paths *)

(** The fragment of regular expressions [MATCHES_EXTERNAL] is written in:
    the assertions [^] and [$] (no [m] flag: start and end of the input),
    literal text, sequence and [|]. *)
Inductive RegExp : Type :=
| AssertStart
| AssertEnd
| Literal (text : string)
| Concat (r1 r2 : RegExp)
| Disjunction (r1 r2 : RegExp).

(** [strip_prefix text input]: the rest of [input] after [text], when
    [input] starts with [text]. *)
Fixpoint strip_prefix (text input : string) : option string :=
  match text, input with
  | EmptyString, _ => Some input
  | String a text', String b input' =>
      if Ascii.eqb a b then strip_prefix text' input' else None
  | String _ _, EmptyString => None
  end.

(** Backtracking matcher with a continuation: [input] is what is left of the
    subject at position [index]; [k] is tried on every way to match [r]. *)
Fixpoint matches (r : RegExp) (index : nat) (input : string)
         (k : nat -> string -> bool) : bool :=
  match r with
  | AssertStart => Nat.eqb index 0 && k index input
  | AssertEnd => negb (truthy input) && k index input
  | Literal text =>
      match strip_prefix text input with
      | Some rest => k (index + String.length text) rest
      | None => false
      end
  | Concat r1 r2 => matches r1 index input (fun i s => matches r2 i s k)
  | Disjunction r1 r2 => matches r1 index input k || matches r2 index input k
  end.

(** A match may start at any position (the expression is not sticky). *)
Fixpoint search (r : RegExp) (index : nat) (input : string) : bool :=
  matches r index input (fun _ _ => true)
  || match input with
     | EmptyString => false
     | String _ rest => search r (S index) rest
     end.

(** [regexp.test(s)], for an expression without the [g] flag. *)
Definition test (r : RegExp) (s : string) : bool := search r 0 s.

(** [/(^|\/)(bower_components|node_modules|build($|\/))/] *)
Definition MATCHES_EXTERNAL : RegExp :=
  Concat (Disjunction AssertStart (Literal "/"))
         (Disjunction (Literal "bower_components")
         (Disjunction (Literal "node_modules")
                      (Concat (Literal "build")
                              (Disjunction AssertEnd (Literal "/"))))).

(** [AnalysisResult.isExternal(path)]. *)
Definition isExternal (path : string) : bool := test MATCHES_EXTERNAL path.

(** ** Features, warnings and query options *)

(** The identity of a [Document] object. *)
Definition DocRef : Type := nat.

Definition DocRef_eq_dec : forall x y : DocRef, {x = y} + {x <> y} :=
  Nat.eq_dec.

(** Modelled from the spec: the [Feature] value of section 3 (its module is
    not among the sources): a kind, an identifier that may be absent and,
    for an import, the [document] it resolved to, absent when unresolved.
    [feature_ref] is the identity of the object. *)
Record Feature : Type := {
  feature_ref : nat;
  kind : string;
  identifier : option string;
  document : option DocRef
}.

(** Modelled from the spec: the [Warning] value of section 3 (its module is
    not among the sources), with the identity of the object. *)
Record Warning : Type := {
  warning_ref : nat;
  code : string;
  message : string
}.

Definition Feature_eq_dec : forall x y : Feature, {x = y} + {x <> y}.
Proof.
  decide equality;
    try apply Nat.eq_dec; try apply string_dec;
    decide equality; try apply Nat.eq_dec; apply string_dec.
Defined.

Definition Warning_eq_dec : forall x y : Warning, {x = y} + {x <> y}.
Proof. decide equality; try apply Nat.eq_dec; apply string_dec. Defined.

(** The options of a Document's queries:
    [{imported?, externalPackages?, noLazyImports?}]. *)
Record DocumentQueryOptions : Type := {
  imported : option bool;
  externalPackages : option bool;
  noLazyImports : option bool
}.

(** [QueryOptions] of an AnalysisResult: [imported?: true] can only be
    [true] when it is given. *)
Record QueryOptions : Type := {
  q_imported : option unit;
  q_externalPackages : option bool;
  q_noLazyImports : option bool
}.

(** The object literal [{imported: true}] the constructor queries with. *)
Definition imported_true : DocumentQueryOptions :=
  {| imported := Some true; externalPackages := None; noLazyImports := None |}.

(** [{imported: false}]: a document's own features only. *)
Definition imported_false : DocumentQueryOptions :=
  {| imported := Some false; externalPackages := None; noLazyImports := None |}.

(** ** AnalysisResult *)

(** A slot of the project: [Document | Warning]. *)
Inductive DocumentOrWarning : Type :=
| IsDocument (doc : DocRef)
| IsWarning (w : Warning).

(** [Map<string, Document | Warning>], entries in insertion order. *)
Definition Results : Type := list (string * DocumentOrWarning).

(** [map.values()]. *)
Definition Map_values (results : Results) : list DocumentOrWarning :=
  map snd results.

(** [map.get(url)]. *)
Fixpoint Map_get (results : Results) (url : string)
  : option DocumentOrWarning :=
  match results with
  | [] => None
  | (key, value) :: rest =>
      if String.eqb key url then Some value else Map_get rest url
  end.

(** [Array.from(results.values()).filter((r) => r instanceof Document)] *)
Definition documents (results : Results) : list DocRef :=
  flat_map (fun r => match r with IsDocument d => [d] | IsWarning _ => [] end)
           (Map_values results).

(** [Array.from(results.values()).filter((r) => !(r instanceof Document))] *)
Definition warnings (results : Results) : list Warning :=
  flat_map (fun r => match r with IsDocument _ => [] | IsWarning w => [w] end)
           (Map_values results).

Record AnalysisResult : Type := {
  _results : Results;
  _searchRoots : list DocRef
}.

(** What a call returns: a value, or the message of the [Error] thrown. *)
Inductive Completion (T : Type) : Type :=
| Return (value : T)
| Throw (error_message : string).

Arguments Return {T} value.
Arguments Throw {T} error_message.

(** A number in a template literal: its decimal digits. *)
Definition number_to_string (n : nat) : string :=
  NilEmpty.string_of_uint (Nat.to_uint n).

Section Engine.

(** The methods of [Document], the collaborator whose module is not among
    the sources; a set or array they return is the list of its entries. *)
Variable Document_getByKind :
  DocRef -> string -> DocumentQueryOptions -> list Feature.
Variable Document_getById :
  DocRef -> string -> string -> DocumentQueryOptions -> list Feature.
Variable Document_getFeatures : DocRef -> DocumentQueryOptions -> list Feature.
Variable Document_getWarnings : DocRef -> DocumentQueryOptions -> list Warning.

(** The inner loop of the constructor over the imports of [doc]:
    [if (imprt.document !== doc) potentialRoots.delete(imprt.document)].
    Deleting the [undefined] of an unresolved import deletes nothing. *)
Definition trimImported (doc : DocRef) (imports : list Feature)
           (potentialRoots : list DocRef) : list DocRef :=
  fold_left
    (fun roots imprt =>
       match document imprt with
       | Some target =>
           if DocRef_eq_dec target doc then roots
           else Set_delete DocRef_eq_dec target roots
       | None => roots
       end)
    imports potentialRoots.

(** The outer loop, [for (const doc of potentialRoots)], over the set that
    the body deletes from.  A Set iterator walks the entries in insertion
    order and passes over an entry deleted before it is reached: [pending]
    are the entries after the iterator as they were at the start, and one
    of them is visited only if it is still in [potentialRoots]. *)
Fixpoint trimRoots (pending potentialRoots : list DocRef) : list DocRef :=
  match pending with
  | [] => potentialRoots
  | doc :: rest =>
      if in_dec DocRef_eq_dec doc potentialRoots
      then trimRoots rest
             (trimImported doc (Document_getByKind doc "import" imported_true)
                           potentialRoots)
      else trimRoots rest potentialRoots
  end.

(** [constructor(results)] *)
Definition new_AnalysisResult (results : Results) : AnalysisResult :=
  let potentialRoots := Set_new DocRef_eq_dec (documents results) in
  {| _results := results;
     _searchRoots := trimRoots potentialRoots potentialRoots |}.

(** [getDocument(url)] *)
Definition getDocument (this : AnalysisResult) (url : string)
  : option DocumentOrWarning :=
  Map_get (_results this) url.

(** [_getDocumentQueryOptions(options?)]; [options || {}] first. *)
Definition _getDocumentQueryOptions (options : option QueryOptions)
  : DocumentQueryOptions :=
  let options :=
    match options with
    | Some o => o
    | None => {| q_imported := None; q_externalPackages := None;
                 q_noLazyImports := None |}
    end in
  {| imported := Some true;
     externalPackages := q_externalPackages options;
     noLazyImports := q_noLazyImports options |}.

(** [getByKind(kind, options?)] *)
Definition getByKind (this : AnalysisResult) (kind : string)
           (options : option QueryOptions) : list Feature :=
  let docQueryOptions := _getDocumentQueryOptions options in
  fold_left
    (fun result doc =>
       addAll Feature_eq_dec result
              (Document_getByKind doc kind docQueryOptions))
    (_searchRoots this) [].

(** [getById(kind, identifier, options?)] *)
Definition getById (this : AnalysisResult) (kind identifier : string)
           (options : option QueryOptions) : list Feature :=
  let docQueryOptions := _getDocumentQueryOptions options in
  fold_left
    (fun result doc =>
       addAll Feature_eq_dec result
              (Document_getById doc kind identifier docQueryOptions))
    (_searchRoots this) [].

(** [getOnlyAtId(kind, identifier, options?)].  The last line,
    [results.values().next().value || undefined], is the first entry of the
    set, or [undefined] for the empty set; a Feature is an object, which is
    truthy. *)
Definition getOnlyAtId (this : AnalysisResult) (kind identifier : string)
           (options : option QueryOptions) : Completion (option Feature) :=
  let results := getById this kind identifier options in
  if Nat.ltb 1 (List.length results)
  then Throw ("Expected to find at most one " ++ kind ++ " with id "
              ++ identifier ++ " but found "
              ++ number_to_string (List.length results) ++ ".")%string
  else Return (hd_error results).

(** [getFeatures(options?)] *)
Definition getFeatures (this : AnalysisResult)
           (options : option QueryOptions) : list Feature :=
  let docQueryOptions := _getDocumentQueryOptions options in
  fold_left
    (fun result doc =>
       addAll Feature_eq_dec result (Document_getFeatures doc docQueryOptions))
    (_searchRoots this) [].

(** [getWarnings(options?)] *)
Definition getWarnings (this : AnalysisResult)
           (options : option QueryOptions) : list Warning :=
  let result := Set_new Warning_eq_dec (warnings (_results this)) in
  let docQueryOptions := _getDocumentQueryOptions options in
  fold_left
    (fun result doc =>
       addAll Warning_eq_dec result
              (Set_new Warning_eq_dec
                       (Document_getWarnings doc docQueryOptions)))
    (_searchRoots this) result.

End Engine.

(** ** The import graph and the contract of a Document's queries *)

Section ImportGraph.

Variable Document_getByKind :
  DocRef -> string -> DocumentQueryOptions -> list Feature.

(** [t] is the document of one of the [imports]. *)
Definition imports_target (imports : list Feature) (t : DocRef) : Prop :=
  exists imprt, In imprt imports /\ document imprt = Some t.

(** An import edge: [x] owns an import feature that resolved to [t]. *)
Definition import_edge (x t : DocRef) : Prop :=
  imports_target (Document_getByKind x "import" imported_false) t.

(** Reachable along zero or more import edges. *)
Definition reaches : DocRef -> DocRef -> Prop :=
  clos_refl_trans DocRef import_edge.

(** Section 4.1 for the query the constructor makes: with [imported: true]
    a document answers with the import features owned by the documents
    reachable from it, itself included, and with nothing else. *)
Definition transitive_contract : Prop :=
  forall (d : DocRef) (f : Feature),
    In f (Document_getByKind d "import" imported_true) <->
    exists x, reaches d x /\ In f (Document_getByKind x "import" imported_false).

(** The documents of a project's import graph: those of the mapping and
    what they reach. *)
Definition in_project (results : Results) (x : DocRef) : Prop :=
  exists d, In d (documents results) /\ reaches d x.

(** The import graph of the project is a DAG. *)
Definition acyclic (results : Results) : Prop :=
  forall x, in_project results x -> ~ clos_trans DocRef import_edge x x.

(** No other document of the project imports [d]. *)
Definition in_degree_zero (results : Results) (d : DocRef) : Prop :=
  forall x, in_project results x -> x <> d -> ~ import_edge x d.

End ImportGraph.

(** ** A model of [Document] *)

(** Modelled from the spec: the [Document] of sections 3 and 4.1, whose
    module is not among the sources: a URL, the features and the warnings the
    document owns.  Import edges are its features of kind ["import"]. *)
Record Document : Type := {
  url : string;
  features : list Feature;
  document_warnings : list Warning
}.

(** The Document objects of a run; a [DocRef] is an index into them. *)
Definition Store : Type := list Document.

Definition emptyDocument : Document :=
  {| url := ""; features := []; document_warnings := [] |}.

Definition deref (store : Store) (d : DocRef) : Document :=
  nth d store emptyDocument.

(** The documents that the import features of [d] resolved to. *)
Definition importTargets (store : Store) (d : DocRef) : list DocRef :=
  flat_map
    (fun f =>
       if String.eqb (kind f) "import"
       then match document f with Some t => [t] | None => [] end
       else [])
    (features (deref store d)).

(** Modelled from the spec: the cycle-safe traversal of section 4.1, with
    its visited set: a document already visited contributes nothing more. *)
Fixpoint visit (store : Store) (fuel : nat) (visited : list DocRef)
         (d : DocRef) : list DocRef :=
  match fuel with
  | 0 => visited
  | S fuel' =>
      if in_dec DocRef_eq_dec d visited then visited
      else fold_left (visit store fuel') (importTargets store d) (d :: visited)
  end.

(** The documents reachable from [d], each once, [d] first. *)
Definition reachableDocuments (store : Store) (d : DocRef) : list DocRef :=
  rev (visit store (S (List.length store)) [] d).

(** The documents a query of [d] ranges over. *)
Definition queried (store : Store) (d : DocRef)
           (options : DocumentQueryOptions) : list DocRef :=
  match imported options with
  | Some true => reachableDocuments store d
  | _ => [d]
  end.

(** Modelled from the spec: [Document.getFeatures(options)] of 4.1. *)
Definition model_getFeatures (store : Store) (d : DocRef)
           (options : DocumentQueryOptions) : list Feature :=
  flat_map (fun x => features (deref store x)) (queried store d options).

(** Modelled from the spec: [Document.getByKind(kind, options)] of 4.1. *)
Definition model_getByKind (store : Store) (d : DocRef) (k : string)
           (options : DocumentQueryOptions) : list Feature :=
  filter (fun f => String.eqb (kind f) k) (model_getFeatures store d options).

(** Modelled from the spec: [Document.getById(kind, identifier, options)]. *)
Definition model_getById (store : Store) (d : DocRef) (k id : string)
           (options : DocumentQueryOptions) : list Feature :=
  filter (fun f => match identifier f with
                   | Some i => String.eqb i id
                   | None => false
                   end)
         (model_getByKind store d k options).

(** Modelled from the spec: [Document.getWarnings(options)] of 4.1. *)
Definition model_getWarnings (store : Store) (d : DocRef)
           (options : DocumentQueryOptions) : list Warning :=
  flat_map (fun x => document_warnings (deref store x))
           (queried store d options).

(** ** The classification of paths in the words of the specification *)

(** The components of a path: the text between its slashes. *)
Fixpoint path_components (path : string) : list string :=
  match path with
  | EmptyString => [EmptyString]
  | String c rest =>
      if Ascii.eqb c "/" then EmptyString :: path_components rest
      else match path_components rest with
           | first :: others => String c first :: others
           | [] => [String c EmptyString]
           end
  end.

(** A component named exactly [build], or one that [bower_components] or
    [node_modules] is a prefix of. *)
Definition external_component (c : string) : bool :=
  String.eqb c "build"
  || String.prefix "bower_components" c
  || String.prefix "node_modules" c.

(** Section 4.3 on [isExternal]: some component of the path is external. *)
Definition spec_isExternal (path : string) : bool :=
  existsb external_component (path_components path).

(** ** Auxiliary notions

    What [MATCHES_EXTERNAL] looks for, position by position, and the
    mapping that [getByKind] and [getFeatures] are compared on. *)

(** Whether an external directory name starts the text: what the second
    group of [MATCHES_EXTERNAL] matches. *)
Definition external_here (s : string) : bool :=
  match strip_prefix "bower_components" s with
  | Some _ => true
  | None =>
      match strip_prefix "node_modules" s with
      | Some _ => true
      | None =>
          match strip_prefix "build" s with
          | Some rest =>
              negb (truthy rest)
              || match strip_prefix "/" rest with
                 | Some _ => true
                 | None => false
                 end
          | None => false
          end
      end
  end.

(** Whether an external directory name follows some slash of the text. *)
Fixpoint external_after_slash (s : string) : bool :=
  match s with
  | EmptyString => false
  | String c rest =>
      (Ascii.eqb c "/" && external_here rest) || external_after_slash rest
  end.

(** The text has no slash. *)
Fixpoint no_slash (s : string) : bool :=
  match s with
  | EmptyString => true
  | String c rest => negb (Ascii.eqb c "/") && no_slash rest
  end.

(** The first component of a path. *)
Definition first_component (path : string) : string :=
  hd EmptyString (path_components path).

(** The mapping without its top-level warnings. *)
Definition without_warnings (results : Results) : Results :=
  filter (fun entry => match snd entry with
                       | IsDocument _ => true
                       | IsWarning _ => false
                       end)
         results.

(** ** Three small projects *)

(** An import feature that resolved to the document [target]. *)
Definition import_of (ref : nat) (href : string) (target : DocRef) : Feature :=
  {| feature_ref := ref; kind := "import"; identifier := Some href;
     document := Some target |}.

(** [a.html] and [b.html] import each other. *)
Definition cycle_store : Store :=
  [ {| url := "a.html"; features := [import_of 0 "b.html" 1];
       document_warnings := [] |};
    {| url := "b.html"; features := [import_of 1 "a.html" 0];
       document_warnings := [] |} ].

Definition cycle_results : Results :=
  [("a.html", IsDocument 0); ("b.html", IsDocument 1)].

(** The same mapping, filled in the other order. *)
Definition cycle_results_reversed : Results :=
  [("b.html", IsDocument 1); ("a.html", IsDocument 0)].

(** [index.html] imports [a.html]; [a.html] and [b.html] import each
    other. *)
Definition entry_store : Store :=
  [ {| url := "index.html"; features := [import_of 0 "a.html" 1];
       document_warnings := [] |};
    {| url := "a.html"; features := [import_of 1 "b.html" 2];
       document_warnings := [] |};
    {| url := "b.html"; features := [import_of 2 "a.html" 1];
       document_warnings := [] |} ].

Definition entry_results : Results :=
  [("a.html", IsDocument 1); ("b.html", IsDocument 2);
   ("index.html", IsDocument 0)].

(** [index.html] imports [a.html] and [b.html], [a.html] imports [b.html];
    [broken.html] could not be scanned. *)
Definition dag_store : Store :=
  [ {| url := "index.html";
       features := [import_of 0 "a.html" 1; import_of 1 "b.html" 2];
       document_warnings := [] |};
    {| url := "a.html"; features := [import_of 2 "b.html" 2];
       document_warnings :=
         [ {| warning_ref := 1; code := "multiple-global-declarations";
              message := "declared twice" |} ] |};
    {| url := "b.html";
       features :=
         [ {| feature_ref := 3; kind := "element";
              identifier := Some "x-foo"; document := None |} ];
       document_warnings := [] |} ].

Definition dag_results : Results :=
  [("b.html", IsDocument 2); ("a.html", IsDocument 1);
   ("broken.html",
    IsWarning {| warning_ref := 0; code := "parse-error";
                 message := "could not parse" |});
   ("index.html", IsDocument 0)].

Definition dag_results_reversed : Results := rev dag_results.

(** A store whose import edges all lead to a document of lower rank. *)
Definition ranked (store : Store) (rank : DocRef -> nat) : bool :=
  forallb
    (fun x => forallb (fun t => Nat.ltb (rank t) (rank x))
                       (importTargets store x))
    (seq 0 (List.length store)).

(* ================================================================== *)
(** * Part II: properties *)
(* ================================================================== *)

(** ** Facts about the Set operations *)

Section JSSetFacts.

Context {A : Type}.
Variable eq_dec : forall x y : A, {x = y} + {x <> y}.

Lemma Set_add_In (s : list A) (x y : A) :
  In y (Set_add eq_dec s x) <-> In y s \/ y = x.
Proof.
  unfold Set_add. destruct (in_dec eq_dec x s) as [Hin | Hnin].
  - split; [now left | intros [H | ->]; assumption].
  - rewrite in_app_iff. simpl. intuition congruence.
Qed.

Lemma Set_add_NoDup (s : list A) (x : A) :
  NoDup s -> NoDup (Set_add eq_dec s x).
Proof.
  intros Hnd. unfold Set_add.
  destruct (in_dec eq_dec x s) as [Hin | Hnin]; [assumption |].
  apply NoDup_app; [assumption | repeat constructor; intros [] | ].
  intros a Ha [<- | []]. contradiction.
Qed.

Lemma addAll_In (set2 set1 : list A) (y : A) :
  In y (addAll eq_dec set1 set2) <-> In y set1 \/ In y set2.
Proof.
  unfold addAll. revert set1.
  induction set2 as [| x set2 IH]; intros set1; simpl.
  - tauto.
  - rewrite IH, Set_add_In. intuition congruence.
Qed.

Lemma addAll_NoDup (set2 set1 : list A) :
  NoDup set1 -> NoDup (addAll eq_dec set1 set2).
Proof.
  unfold addAll. revert set1.
  induction set2 as [| x set2 IH]; intros set1 Hnd; simpl.
  - assumption.
  - apply IH, Set_add_NoDup, Hnd.
Qed.

Lemma Set_new_In (xs : list A) (y : A) :
  In y (Set_new eq_dec xs) <-> In y xs.
Proof. unfold Set_new. rewrite addAll_In. simpl. tauto. Qed.

Lemma Set_new_NoDup (xs : list A) : NoDup (Set_new eq_dec xs).
Proof. apply addAll_NoDup. constructor. Qed.

Lemma Set_delete_In (x y : A) (s : list A) :
  In y (Set_delete eq_dec x s) <-> In y s /\ y <> x.
Proof.
  unfold Set_delete. split.
  - apply in_remove.
  - intros [H1 H2]. now apply in_in_remove.
Qed.

Lemma Set_delete_absent (x : A) (s : list A) :
  ~ In x s -> Set_delete eq_dec x s = s.
Proof. intros H. unfold Set_delete. now apply notin_remove. Qed.

(** The merge loop of the query operations:
    [for (const doc of roots) addAll(result, query(doc))]. *)
Lemma fold_addAll_In {B : Type} (query : B -> list A) (roots : list B)
      (init : list A) (y : A) :
  In y (fold_left (fun result doc => addAll eq_dec result (query doc))
                  roots init)
  <-> In y init \/ exists doc, In doc roots /\ In y (query doc).
Proof.
  revert init. induction roots as [| r roots IH]; intros init; simpl.
  - split; [now left | intros [H | (d & [] & _)]; exact H].
  - rewrite IH, addAll_In. split.
    + intros [[H | H] | (d & Hd & Hy)]; eauto.
    + intros [H | (d & [<- | Hd] & Hy)]; eauto.
Qed.

Lemma fold_addAll_NoDup {B : Type} (query : B -> list A) (roots : list B)
      (init : list A) :
  NoDup init ->
  NoDup (fold_left (fun result doc => addAll eq_dec result (query doc))
                   roots init).
Proof.
  revert init. induction roots as [| r roots IH]; intros init Hnd; simpl.
  - assumption.
  - apply IH, addAll_NoDup, Hnd.
Qed.

End JSSetFacts.

(** ** Location remapping *)

(** C7.  With a location and an offset both present, the remapped location
    has line [inner.line + offset.line]; its column is
    [inner.column + offset.col] when [inner.line] is 0 and [inner.column]
    when [inner.line] is greater than 0. *)
Theorem correctSourceLocation_rule
        (inner : SourceLocation) (offset : LocationOffset) :
  exists outer,
    correctSourceLocation (Some inner) (Some offset) = Some outer
    /\ line outer = (line inner + offset_line offset)%Z
    /\ (line inner = 0%Z -> column outer = (column inner + col offset)%Z)
    /\ ((line inner > 0)%Z -> column outer = column inner).
Proof.
  eexists. split; [reflexivity |]. simpl. split; [reflexivity |]. split.
  - intros ->. reflexivity.
  - intros Hpos. destruct (Z.eqb_spec (line inner) 0) as [E | _]; lia.
Qed.

(** C8.  Without an offset the location comes back as it went in, be it
    absent itself: same line, same column, same filename or none. *)
Theorem correctSourceLocation_pass_through (loc : option SourceLocation) :
  correctSourceLocation loc None = loc.
Proof. destruct loc; reflexivity. Qed.

(** C9, as the specification states it, fails when the offset's filename is
    the empty string: the test [!= null] takes it for a filename, the
    operator [||] does not.  With no filename inside, the result carries
    none; with one inside, the result carries that one. *)
Lemma correctSourceLocation_empty_filename :
  let inner := {| line := 0; column := 0; file := None |} in
  let inner' := {| line := 0; column := 0; file := Some "a.html" |} in
  let offset := {| offset_line := 0; col := 0; filename := Some "" |} in
  (filename offset <> None
   /\ correctSourceLocation (Some inner) (Some offset)
      = Some {| line := 0; column := 0; file := None |})
  /\ (filename offset = Some "" /\ file inner' = Some "a.html"
      /\ correctSourceLocation (Some inner') (Some offset)
         = Some {| line := 0; column := 0; file := Some "a.html" |}).
Proof. cbv zeta. repeat split; discriminate. Qed.

(** C9, amended.  With a location and an offset both present, the result
    carries a filename if and only if the offset has a non-empty filename or
    the inner location carries one; a non-empty filename of the offset is
    the result's, whatever the inner location carries; an absent or empty
    one leaves the inner location's. *)
Theorem correctSourceLocation_filename
        (inner : SourceLocation) (offset : LocationOffset) :
  exists outer,
    correctSourceLocation (Some inner) (Some offset) = Some outer
    /\ (file outer <> None <->
        (exists name, filename offset = Some name /\ name <> "")
        \/ file inner <> None)
    /\ (forall name,
           filename offset = Some name -> name <> "" ->
           file outer = Some name)
    /\ (filename offset = None \/ filename offset = Some "" ->
        file outer = file inner).
Proof.
  eexists. split; [reflexivity |]. simpl.
  destruct (filename offset) as [[| c name] |], (file inner) as [f |];
    simpl; repeat split; try congruence; try tauto;
    try (intros _; left; eexists; split; [reflexivity | discriminate]);
    try (intros _; now right);
    try (intros [(n & Hn & Hne) | H]; congruence);
    try (intros [H | H]; congruence).
Qed.

(** ** External paths *)

Lemma path_components_nonempty (path : string) : path_components path <> [].
Proof.
  destruct path as [| c rest]; simpl; [discriminate |].
  destruct (Ascii.eqb c "/"); [discriminate |].
  destruct (path_components rest); discriminate.
Qed.

Lemma first_component_String (c : ascii) (rest : string) :
  first_component (String c rest)
  = if Ascii.eqb c "/" then EmptyString else String c (first_component rest).
Proof.
  unfold first_component. simpl.
  destruct (Ascii.eqb c "/"); [reflexivity |].
  pose proof (path_components_nonempty rest) as Hne.
  destruct (path_components rest); [contradiction | reflexivity].
Qed.

Lemma tl_path_components_String (c : ascii) (rest : string) :
  tl (path_components (String c rest))
  = if Ascii.eqb c "/" then path_components rest
    else tl (path_components rest).
Proof.
  simpl. destruct (Ascii.eqb c "/"); [reflexivity |].
  pose proof (path_components_nonempty rest) as Hne.
  destruct (path_components rest); [contradiction | reflexivity].
Qed.

Lemma path_components_hd_tl (path : string) :
  path_components path = first_component path :: tl (path_components path).
Proof.
  unfold first_component.
  pose proof (path_components_nonempty path) as Hne.
  destruct (path_components path); [contradiction | reflexivity].
Qed.

Lemma prefix_strip_prefix (text s : string) :
  String.prefix text s
  = match strip_prefix text s with Some _ => true | None => false end.
Proof.
  revert s. induction text as [| a text IH]; intros s.
  - destruct s; reflexivity.
  - destruct s as [| b s]; [reflexivity |]. simpl.
    destruct (ascii_dec a b) as [-> | Hab].
    + rewrite Ascii.eqb_refl. apply IH.
    + apply Ascii.eqb_neq in Hab. now rewrite Hab.
Qed.

(** Text without a slash starts a path exactly when it starts the first
    component of the path. *)
Lemma strip_prefix_first_component (text s : string) :
  no_slash text = true ->
  match strip_prefix text s with Some _ => true | None => false end
  = String.prefix text (first_component s).
Proof.
  revert s. induction text as [| a text IH]; intros s Hns; simpl in *.
  - destruct (first_component s); reflexivity.
  - apply andb_true_iff in Hns as [Ha Hns].
    apply negb_true_iff in Ha.
    destruct s as [| b s]; [reflexivity |].
    rewrite first_component_String.
    destruct (Ascii.eqb_spec a b) as [-> | Hab].
    + rewrite Ha. simpl.
      destruct (ascii_dec b b); [| contradiction]. now apply IH.
    + destruct (Ascii.eqb b "/"); [reflexivity |]. simpl.
      destruct (ascii_dec a b); [contradiction | reflexivity].
Qed.

(** Text without a slash, followed by the end of the path or by a slash, is
    the first component of the path. *)
Lemma strip_prefix_whole_component (text s : string) :
  no_slash text = true ->
  match strip_prefix text s with
  | Some rest =>
      negb (truthy rest)
      || match strip_prefix "/" rest with Some _ => true | None => false end
  | None => false
  end
  = String.eqb (first_component s) text.
Proof.
  revert s. induction text as [| a text IH]; intros s Hns.
  - destruct s as [| b s]; [reflexivity |].
    rewrite first_component_String. cbn [strip_prefix truthy negb orb].
    rewrite (Ascii.eqb_sym "/" b).
    destruct (Ascii.eqb b "/"); reflexivity.
  - cbn [no_slash] in Hns. apply andb_true_iff in Hns as [Ha Hns].
    apply negb_true_iff in Ha.
    destruct s as [| b s]; [reflexivity |].
    rewrite first_component_String. cbn [strip_prefix].
    destruct (Ascii.eqb_spec a b) as [-> | Hab].
    + rewrite Ha. cbn [String.eqb]. rewrite Ascii.eqb_refl. now apply IH.
    + destruct (Ascii.eqb b "/"); [reflexivity |]. cbn [String.eqb].
      rewrite (Ascii.eqb_sym b a).
      apply Ascii.eqb_neq in Hab. now rewrite Hab.
Qed.

Lemma external_here_first_component (s : string) :
  external_here s = external_component (first_component s).
Proof.
  unfold external_here, external_component.
  rewrite <- (strip_prefix_first_component "bower_components" s eq_refl).
  rewrite <- (strip_prefix_first_component "node_modules" s eq_refl).
  rewrite <- (strip_prefix_whole_component "build" s eq_refl).
  destruct (strip_prefix "bower_components" s);
    destruct (strip_prefix "node_modules" s);
    destruct (strip_prefix "build" s) as [rest |];
    try reflexivity;
    rewrite ?orb_true_r, ?orb_false_r; reflexivity.
Qed.

Lemma external_after_slash_components (s : string) :
  external_after_slash s
  = existsb external_component (tl (path_components s)).
Proof.
  induction s as [| c rest IH]; [reflexivity |].
  rewrite tl_path_components_String. simpl external_after_slash.
  destruct (Ascii.eqb c "/"); simpl.
  - rewrite (path_components_hd_tl rest) at 1. simpl.
    now rewrite IH, external_here_first_component.
  - exact IH.
Qed.

(** One attempt at one position: either the position is the start of the
    path, or a slash stands there, and an external name follows. *)
Lemma matches_MATCHES_EXTERNAL (index : nat) (s : string) :
  matches MATCHES_EXTERNAL index s (fun _ _ => true)
  = (Nat.eqb index 0 && external_here s)
    || match s with
       | String c rest => Ascii.eqb c "/" && external_here rest
       | EmptyString => false
       end.
Proof.
  assert (Hhere : forall i t,
             matches (Disjunction (Literal "bower_components")
                     (Disjunction (Literal "node_modules")
                                  (Concat (Literal "build")
                                          (Disjunction AssertEnd
                                                       (Literal "/")))))
                     i t (fun _ _ => true)
             = external_here t).
  { intros i t. unfold external_here. cbn [matches].
    destruct (strip_prefix "bower_components" t); [reflexivity |].
    destruct (strip_prefix "node_modules" t); [reflexivity |].
    destruct (strip_prefix "build" t) as [rest |]; [| reflexivity].
    rewrite andb_true_r. cbn [orb]. reflexivity. }
  unfold MATCHES_EXTERNAL.
  set (name := Disjunction (Literal "bower_components") _) in *.
  cbn [matches]. rewrite Hhere. f_equal.
  destruct s as [| c rest]; [reflexivity |].
  cbn [strip_prefix]. rewrite (Ascii.eqb_sym "/" c).
  destruct (Ascii.eqb c "/"); [apply Hhere | reflexivity].
Qed.

Lemma search_MATCHES_EXTERNAL (index : nat) (s : string) :
  search MATCHES_EXTERNAL index s
  = (Nat.eqb index 0 && external_here s) || external_after_slash s.
Proof.
  revert index. induction s as [| c rest IH]; intros index;
    cbn [search]; rewrite matches_MATCHES_EXTERNAL.
  - now rewrite orb_false_r.
  - rewrite IH. cbn [external_after_slash Nat.eqb andb orb].
    now rewrite orb_assoc.
Qed.

Lemma isExternal_spec_isExternal (path : string) :
  isExternal path = spec_isExternal path.
Proof.
  unfold isExternal, test, spec_isExternal.
  rewrite search_MATCHES_EXTERNAL. cbn [Nat.eqb andb].
  rewrite (path_components_hd_tl path). cbn [existsb].
  now rewrite external_here_first_component, external_after_slash_components.
Qed.

(** C10.  [isExternal] is true exactly of the paths with a component named
    [build], or a component that starts with [bower_components] or with
    [node_modules]; the four paths of the specification are classified as it
    says. *)
Theorem isExternal_classification :
  (forall path : string,
      isExternal path = true <->
      exists c, In c (path_components path)
                /\ (c = "build"
                    \/ String.prefix "bower_components" c = true
                    \/ String.prefix "node_modules" c = true))
  /\ isExternal "node_modules/foo/bar.js" = true
  /\ isExternal "bower_components-extra/x.js" = true
  /\ isExternal "build/out.js" = true
  /\ isExternal "src/build-tools/x.js" = false.
Proof.
  split; [| repeat split; reflexivity].
  intros path. rewrite isExternal_spec_isExternal.
  unfold spec_isExternal. rewrite existsb_exists.
  split; intros (c & Hin & Hc); exists c; (split; [exact Hin |]).
  - unfold external_component in Hc.
    apply orb_true_iff in Hc as [Hc | Hc]; [| now right; right].
    apply orb_true_iff in Hc as [Hc | Hc]; [| now right; left].
    left. now apply String.eqb_eq.
  - unfold external_component.
    destruct Hc as [-> | [Hc | Hc]]; [reflexivity | |];
      rewrite Hc, ?orb_true_r; reflexivity.
Qed.

(** ** The reduction to search roots *)

Lemma imports_target_cons (imprt : Feature) (imports : list Feature)
      (t : DocRef) :
  imports_target (imprt :: imports) t
  <-> document imprt = Some t \/ imports_target imports t.
Proof.
  unfold imports_target. simpl. split.
  - intros (f & [<- | Hin] & Hf); eauto.
  - intros [Hf | (f & Hin & Hf)]; eauto.
Qed.

Lemma imports_target_dec (imports : list Feature) (t : DocRef) :
  imports_target imports t \/ ~ imports_target imports t.
Proof.
  induction imports as [| f imports [IH | IH]].
  - right. intros (g & [] & _).
  - left. apply imports_target_cons. now right.
  - destruct (document f) as [u |] eqn:Eu.
    + destruct (DocRef_eq_dec u t) as [-> | Hne].
      * left. apply imports_target_cons. now left.
      * right. intros H. apply imports_target_cons in H as [H | H];
          [congruence | contradiction].
    + right. intros H. apply imports_target_cons in H as [H | H];
        [congruence | contradiction].
Qed.

(** The inner loop keeps [doc] and deletes every other target. *)
Lemma trimImported_In (doc : DocRef) (imports : list Feature)
      (roots : list DocRef) (x : DocRef) :
  In x (trimImported doc imports roots)
  <-> In x roots /\ (imports_target imports x -> x = doc).
Proof.
  unfold trimImported. revert roots.
  induction imports as [| imprt imports IH]; intros roots; cbn [fold_left].
  - split; [| tauto]. intros H. split; [exact H |].
    intros (f & [] & _).
  - rewrite IH, imports_target_cons.
    destruct (document imprt) as [t |] eqn:Et.
    + destruct (DocRef_eq_dec t doc) as [-> | Hne].
      * split; intros [Hin Himp]; (split; [exact Hin |]).
        -- intros [Heq | Ht]; [congruence | auto].
        -- auto.
      * rewrite Set_delete_In. split.
        -- intros [[Hin Hxt] Himp]. split; [exact Hin |].
           intros [Heq | Ht]; [congruence | auto].
        -- intros [Hin Himp]. repeat split; auto.
           intros ->. apply Hne, Himp. now left.
    + split; intros [Hin Himp]; (split; [exact Hin |]).
      * intros [Heq | Ht]; [discriminate | auto].
      * auto.
Qed.

Section RootSetFacts.

Variable Document_getByKind :
  DocRef -> string -> DocumentQueryOptions -> list Feature.

(** What the constructor asks of a document. *)
Let imports_of (doc : DocRef) : list Feature :=
  Document_getByKind doc "import" imported_true.

Let edge : DocRef -> DocRef -> Prop := import_edge Document_getByKind.

(** The loop only deletes. *)
Lemma trimRoots_subset (pending roots : list DocRef) (x : DocRef) :
  In x (trimRoots Document_getByKind pending roots) -> In x roots.
Proof.
  revert roots. induction pending as [| doc rest IH]; intros roots; simpl.
  - auto.
  - destruct (in_dec DocRef_eq_dec doc roots) as [Hin | Hnin].
    + intros H. apply IH in H. now apply trimImported_In in H.
    + apply IH.
Qed.

(** A candidate that no other pending document has among its imports'
    targets stays. *)
Lemma trimRoots_kept (pending roots : list DocRef) (d : DocRef) :
  In d roots ->
  (forall v, In v pending -> v <> d -> ~ imports_target (imports_of v) d) ->
  In d (trimRoots Document_getByKind pending roots).
Proof.
  revert roots. induction pending as [| doc rest IH]; intros roots Hd Hfree;
    simpl.
  - exact Hd.
  - assert (Hrest : forall v, In v rest -> v <> d ->
                              ~ imports_target (imports_of v) d)
      by (intros v Hv; apply Hfree; now right).
    destruct (in_dec DocRef_eq_dec doc roots) as [Hin | Hnin].
    + apply IH; [| exact Hrest]. apply trimImported_In. split; [exact Hd |].
      intros Ht. destruct (DocRef_eq_dec d doc) as [E | Hne]; [exact E |].
      exfalso. apply (Hfree doc); [now left | congruence | exact Ht].
    + now apply IH.
Qed.

(** A root excludes every other target of its imports. *)
Lemma trimRoots_independent (pending roots : list DocRef) (r t : DocRef) :
  In r pending ->
  In r (trimRoots Document_getByKind pending roots) ->
  imports_target (imports_of r) t -> t <> r ->
  ~ In t (trimRoots Document_getByKind pending roots).
Proof.
  revert roots. induction pending as [| doc rest IH];
    intros roots Hpending Hr Ht Hne; simpl in *.
  - contradiction.
  - destruct (in_dec DocRef_eq_dec doc roots) as [Hin | Hnin].
    + destruct (DocRef_eq_dec doc r) as [-> | Hdr].
      * intros Hin_t. apply trimRoots_subset in Hin_t.
        apply trimImported_In in Hin_t as [_ Himp]. auto.
      * destruct Hpending as [E | Hpending]; [contradiction |].
        now apply IH.
    + destruct Hpending as [<- | Hpending].
      * apply trimRoots_subset in Hr. contradiction.
      * now apply IH.
Qed.

(** A pass over candidates none of which has another candidate among its
    imports' targets deletes nothing. *)
Lemma trimRoots_stable (pending roots : list DocRef) :
  (forall v t, In v pending -> imports_target (imports_of v) t -> t <> v ->
               ~ In t roots) ->
  trimRoots Document_getByKind pending roots = roots.
Proof.
  induction pending as [| doc rest IH]; intros Hfree; simpl.
  - reflexivity.
  - assert (Hrest : trimRoots Document_getByKind rest roots = roots).
    { apply IH. intros v t Hv. apply Hfree. now right. }
    destruct (in_dec DocRef_eq_dec doc roots) as [Hin | Hnin];
      [| exact Hrest].
    replace (trimImported doc (Document_getByKind doc "import" imported_true)
                          roots) with roots; [exact Hrest |].
    assert (Hgen : forall imports,
               (forall t, imports_target imports t -> t <> doc ->
                          ~ In t roots) ->
               roots = trimImported doc imports roots).
    { clear. unfold trimImported.
      induction imports as [| imprt imports IHi]; intros Hno;
        cbn [fold_left]; [reflexivity |].
      assert (Hi : forall t, imports_target imports t -> t <> doc ->
                             ~ In t roots).
      { intros t Ht. apply Hno. apply imports_target_cons. now right. }
      destruct (document imprt) as [t |] eqn:Et; [| now apply IHi].
      destruct (DocRef_eq_dec t doc) as [-> | Hne]; [now apply IHi |].
      rewrite Set_delete_absent; [now apply IHi |].
      apply Hno; [| exact Hne]. apply imports_target_cons. now left. }
    apply Hgen. intros t Ht. apply (Hfree doc t); [now left | exact Ht].
Qed.

Hypothesis contract : transitive_contract Document_getByKind.

(** Under the contract the targets of [doc]'s imports are the documents
    reachable from [doc] along one import edge or more. *)
Lemma imports_target_clos_trans (doc t : DocRef) :
  imports_target (imports_of doc) t <-> clos_trans DocRef edge doc t.
Proof.
  unfold imports_of, imports_target. split.
  - intros (f & Hin & Hf). apply contract in Hin as (x & Hreach & Hlocal).
    apply clos_rt_t with x; [exact Hreach |].
    apply t_step. exists f. auto.
  - intros Hplus. apply clos_trans_tn1 in Hplus.
    assert (Hlast : exists x, reaches Document_getByKind doc x /\ edge x t).
    { destruct Hplus as [y Hy | y z Hyz Hplus].
      - exists doc. split; [apply rt_refl | exact Hy].
      - exists y. split; [| exact Hyz].
        apply clos_t_clos_rt, clos_tn1_trans, Hplus. }
    destruct Hlast as (x & Hreach & (f & Hlocal & Hf)).
    exists f. split; [| exact Hf]. apply contract. eauto.
Qed.

Lemma imports_target_reaches (doc t : DocRef) :
  imports_target (imports_of doc) t -> reaches Document_getByKind doc t.
Proof.
  intros H. apply clos_t_clos_rt. now apply imports_target_clos_trans.
Qed.

(** The invariant of the loop: every document that was reachable from a
    candidate still is. *)
Lemma trimRoots_cover (pending roots : list DocRef) (d : DocRef) :
  (exists r, In r roots /\ reaches Document_getByKind r d) ->
  exists r, In r (trimRoots Document_getByKind pending roots)
            /\ reaches Document_getByKind r d.
Proof.
  revert roots. induction pending as [| doc rest IH]; intros roots Hcov;
    simpl.
  - exact Hcov.
  - destruct (in_dec DocRef_eq_dec doc roots) as [Hin | Hnin];
      [| now apply IH].
    apply IH. destruct Hcov as (r & Hr & Hreach).
    set (roots' := trimImported doc _ roots).
    destruct (in_dec DocRef_eq_dec r roots') as [Hkept | Hgone].
    + exists r. auto.
    + exists doc. split.
      * apply trimImported_In. auto.
      * apply rt_trans with r; [| exact Hreach].
        destruct (DocRef_eq_dec r doc) as [-> | Hne]; [apply rt_refl |].
        apply imports_target_reaches.
        destruct (imports_target_dec (imports_of doc) r) as [Ht | Hnt];
          [exact Ht |].
        exfalso. apply Hgone. apply trimImported_In. split; [exact Hr |].
        intros Ht. contradiction.
Qed.

(** The search roots of a project. *)
Let roots_of (results : Results) : list DocRef :=
  _searchRoots (new_AnalysisResult Document_getByKind results).

Lemma searchRoots_documents (results : Results) (r : DocRef) :
  In r (roots_of results) -> In r (documents results).
Proof.
  unfold roots_of. simpl. intros H. apply trimRoots_subset in H.
  now apply Set_new_In in H.
Qed.

Lemma searchRoots_cover (results : Results) (d : DocRef) :
  In d (documents results) ->
  exists r, In r (roots_of results) /\ reaches Document_getByKind r d.
Proof.
  intros Hd. unfold roots_of. simpl. apply trimRoots_cover.
  exists d. split; [now apply Set_new_In | apply rt_refl].
Qed.

(** No root is reachable from another root. *)
Lemma searchRoots_independent (results : Results) (r t : DocRef) :
  In r (roots_of results) -> In t (roots_of results) ->
  clos_trans DocRef edge r t -> t = r.
Proof.
  intros Hr Ht Hplus.
  destruct (DocRef_eq_dec t r) as [E | Hne]; [exact E | exfalso].
  revert Ht. unfold roots_of in *. simpl in *.
  apply trimRoots_independent with r; auto.
  - apply trimRoots_subset in Hr. exact Hr.
  - now apply imports_target_clos_trans.
Qed.

(** On an acyclic graph the roots are the documents of the mapping that no
    other document of the project imports. *)
Lemma searchRoots_acyclic (results : Results) (d : DocRef) :
  acyclic Document_getByKind results ->
  In d (roots_of results)
  <-> In d (documents results)
      /\ in_degree_zero Document_getByKind results d.
Proof.
  intros Hacyclic. split.
  - intros Hd. split; [now apply searchRoots_documents |].
    intros x (v & Hv & Hvx) Hxd Hedge.
    destruct (searchRoots_cover results v Hv) as (r & Hr & Hrv).
    assert (Hplus : clos_trans DocRef edge r d).
    { apply clos_rt_t with x; [| now apply t_step].
      now apply rt_trans with v. }
    assert (E : d = r) by now apply (searchRoots_independent results).
    subst r. apply (Hacyclic d); [| exact Hplus].
    exists d. split; [now apply searchRoots_documents | apply rt_refl].
  - intros [Hd Hzero]. unfold roots_of. simpl.
    apply trimRoots_kept; [now apply Set_new_In |].
    intros v Hv Hne Ht. apply Set_new_In in Hv.
    apply imports_target_clos_trans, clos_trans_tn1 in Ht.
    destruct Ht as [y Hy | y z Hyz Hplus].
    + apply (Hzero v); auto. exists v. split; [exact Hv | apply rt_refl].
    + assert (Hvy : reaches Document_getByKind v y)
        by apply clos_t_clos_rt, clos_tn1_trans, Hplus.
      destruct (DocRef_eq_dec y z) as [-> | Hyz'].
      * apply (Hacyclic z); [| now apply t_step]. now exists v.
      * apply (Hzero y); auto. now exists v.
Qed.

End RootSetFacts.

(** ** The model of Document meets the contract *)

Section DocumentModelFacts.

Variable store : Store.

(** One import edge of the store. *)
Let step (x t : DocRef) : Prop := In t (importTargets store x).

Lemma importTargets_import_edge (x t : DocRef) :
  In t (importTargets store x) <-> import_edge (model_getByKind store) x t.
Proof.
  unfold import_edge, imports_target, model_getByKind, model_getFeatures,
    importTargets.
  cbn [queried imported imported_false flat_map]. rewrite app_nil_r.
  rewrite in_flat_map. split.
  - intros (f & Hf & Ht). exists f.
    destruct (String.eqb (kind f) "import") eqn:Ek; [| contradiction].
    rewrite filter_In. destruct (document f) as [u |]; [| contradiction].
    destruct Ht as [-> | []]. auto.
  - intros (f & Hf & Ht). apply filter_In in Hf as [Hf Hk].
    exists f. split; [exact Hf |]. rewrite Hk, Ht. now left.
Qed.

Lemma reaches_model_step (d x : DocRef) :
  reaches (model_getByKind store) d x <-> clos_refl_trans DocRef step d x.
Proof.
  unfold reaches.
  split; intros H; induction H as [a b Hab | a | a b c _ IH1 _ IH2];
    try (apply rt_refl); try (now apply rt_trans with b);
    apply rt_step; now apply importTargets_import_edge.
Qed.

Lemma importTargets_outside (d : DocRef) :
  List.length store <= d -> importTargets store d = [].
Proof.
  intros Hle. unfold importTargets, deref. now rewrite nth_overflow.
Qed.

(** The documents of the store that are not yet visited. *)
Let unvisited (visited : list DocRef) : list DocRef :=
  filter (fun x => negb (existsb (Nat.eqb x) visited))
         (seq 0 (List.length store)).

Lemma existsb_eqb_In (x : DocRef) (l : list DocRef) :
  existsb (Nat.eqb x) l = true <-> In x l.
Proof.
  rewrite existsb_exists. split.
  - intros (y & Hy & E). apply Nat.eqb_eq in E. now subst.
  - intros H. exists x. split; [exact H | apply Nat.eqb_refl].
Qed.

Lemma filter_length_mono {T : Type} (p q : T -> bool) (l : list T) :
  (forall x, In x l -> p x = true -> q x = true) ->
  List.length (filter p l) <= List.length (filter q l).
Proof.
  induction l as [| a l IH]; intros Himp; simpl; [lia |].
  assert (IH' : List.length (filter p l) <= List.length (filter q l))
    by (apply IH; intros x Hx; apply Himp; now right).
  specialize (Himp a (or_introl eq_refl)).
  destruct (p a), (q a); simpl; try lia; discriminate (Himp eq_refl).
Qed.

Lemma filter_length_strict {T : Type} (p q : T -> bool) (l : list T) (a : T) :
  (forall x, In x l -> p x = true -> q x = true) ->
  In a l -> q a = true -> p a = false ->
  List.length (filter p l) < List.length (filter q l).
Proof.
  induction l as [| b l IH]; intros Himp Ha Hq Hp; simpl; [contradiction |].
  assert (Hl : forall x, In x l -> p x = true -> q x = true)
    by (intros x Hx; apply Himp; now right).
  pose proof (filter_length_mono p q l Hl) as Hle.
  destruct Ha as [-> | Ha].
  - rewrite Hq, Hp. simpl. lia.
  - specialize (IH Hl Ha Hq Hp).
    specialize (Himp b (or_introl eq_refl)).
    destruct (p b), (q b); simpl; try lia; discriminate (Himp eq_refl).
Qed.

Lemma unvisited_incl (visited visited' : list DocRef) :
  incl visited visited' ->
  List.length (unvisited visited') <= List.length (unvisited visited).
Proof.
  intros Hincl. apply filter_length_mono. intros x _ Hx.
  apply negb_true_iff in Hx. apply negb_true_iff.
  apply not_true_is_false. intros H. apply existsb_eqb_In in H.
  apply Hincl, existsb_eqb_In in H. congruence.
Qed.

Lemma unvisited_cons (visited : list DocRef) (d : DocRef) :
  d < List.length store -> ~ In d visited ->
  List.length (unvisited (d :: visited)) < List.length (unvisited visited).
Proof.
  intros Hd Hnin. apply filter_length_strict with d.
  - intros x _ Hx. apply negb_true_iff in Hx. apply negb_true_iff.
    apply not_true_is_false. intros H. apply existsb_eqb_In in H.
    assert (Hin : In x (d :: visited)) by now right.
    apply existsb_eqb_In in Hin. congruence.
  - apply in_seq. lia.
  - apply negb_true_iff, not_true_is_false. intros H.
    now apply existsb_eqb_In in H.
  - apply negb_false_iff. apply existsb_eqb_In. now left.
Qed.

(** What a traversal from [roots] that started with [visited] has to give:
    it keeps what was visited, visits the roots, visits nothing that is not
    reachable from a root, and visits the imports of what it visits. *)
Let visit_ok (visited roots result : list DocRef) : Prop :=
  incl visited result
  /\ incl roots result
  /\ (forall x, In x result ->
                In x visited
                \/ exists r, In r roots /\ clos_refl_trans DocRef step r x)
  /\ (forall x, In x result -> ~ In x visited ->
                incl (importTargets store x) result).

Lemma visit_spec (fuel : nat) :
  forall (visited : list DocRef) (d : DocRef),
    List.length (unvisited visited) < fuel ->
    visit_ok visited [d] (visit store fuel visited d).
Proof.
  induction fuel as [| fuel IH]; intros visited d Hfuel; [lia |].
  assert (Hfold : forall l vis,
             List.length (unvisited vis) < fuel ->
             visit_ok vis l (fold_left (visit store fuel) l vis)).
  { induction l as [| t l IHl]; intros vis Hvis; cbn [fold_left].
    - refine (conj _ (conj _ (conj _ _))).
      + apply incl_refl.
      + intros x [].
      + intros x Hx. now left.
      + intros x Hx Hnx. contradiction.
    - destruct (IH vis t Hvis) as (H1 & H2 & H3 & H4).
      set (vis1 := visit store fuel vis t) in *.
      assert (Hvis1 : List.length (unvisited vis1) < fuel).
      { pose proof (unvisited_incl H1). lia. }
      destruct (IHl vis1 Hvis1) as (K1 & K2 & K3 & K4).
      refine (conj _ (conj _ (conj _ _))).
      + eapply incl_tran; eauto.
      + intros x [<- | Hx]; [apply K1, H2; now left | now apply K2].
      + intros x Hx. destruct (K3 x Hx) as [Hx1 | (r & Hr & Hrx)].
        * destruct (H3 x Hx1) as [Hv | (r & [<- | []] & Hrx)]; [now left |].
          right. exists t. split; [now left | exact Hrx].
        * right. exists r. split; [now right | exact Hrx].
      + intros x Hx Hnv.
        destruct (in_dec DocRef_eq_dec x vis1) as [Hx1 | Hx1].
        * eapply incl_tran; [now apply H4 | exact K1].
        * now apply K4. }
  cbn [visit].
  destruct (in_dec DocRef_eq_dec d visited) as [Hin | Hnin].
  - refine (conj _ (conj _ (conj _ _))).
    + apply incl_refl.
    + intros x [<- | []]. exact Hin.
    + intros x Hx. now left.
    + intros x Hx Hnx. contradiction.
  - destruct (importTargets store d) as [| t l] eqn:Et.
    + cbn [fold_left]. refine (conj _ (conj _ (conj _ _))).
      * apply incl_tl, incl_refl.
      * intros x [<- | []]. now left.
      * intros x [<- | Hx]; [| now left].
        right. exists d. split; [now left | apply rt_refl].
      * intros x [<- | Hx] Hnx; [| contradiction].
        rewrite Et. intros y [].
    + assert (Hd : d < List.length store).
      { destruct (Nat.lt_ge_cases d (List.length store)) as [H | H];
          [exact H |].
        rewrite (importTargets_outside H) in Et. discriminate. }
      rewrite <- Et.
      assert (Hvis : List.length (unvisited (d :: visited)) < fuel).
      { pose proof (unvisited_cons visited Hd Hnin). lia. }
      destruct (Hfold (importTargets store d) (d :: visited) Hvis)
        as (H1 & H2 & H3 & H4).
      refine (conj _ (conj _ (conj _ _))).
      * intros x Hx. apply H1. now right.
      * intros x [<- | []]. apply H1. now left.
      * intros x Hx. destruct (H3 x Hx) as [[<- | Hv] | (r & Hr & Hrx)].
        -- right. exists d. split; [now left | apply rt_refl].
        -- now left.
        -- right. exists d. split; [now left |].
           apply rt_trans with r; [now apply rt_step | exact Hrx].
      * intros x Hx Hnx. destruct (DocRef_eq_dec x d) as [-> | Hne].
        -- exact H2.
        -- apply H4; [exact Hx |]. intros [E | Hv]; [congruence | auto].
Qed.

(** The traversal visits no document twice: one contribution each. *)
Lemma visit_NoDup (fuel : nat) :
  forall (visited : list DocRef) (d : DocRef),
    NoDup visited -> NoDup (visit store fuel visited d).
Proof.
  induction fuel as [| fuel IH]; intros visited d Hnd; cbn [visit];
    [exact Hnd |].
  destruct (in_dec DocRef_eq_dec d visited) as [Hin | Hnin]; [exact Hnd |].
  assert (Hfold : forall l vis,
             NoDup vis -> NoDup (fold_left (visit store fuel) l vis)).
  { induction l as [| t l IHl]; intros vis Hvis; cbn [fold_left];
      [exact Hvis | apply IHl, IH, Hvis]. }
  apply Hfold. now constructor.
Qed.

Lemma reachableDocuments_NoDup (d : DocRef) :
  NoDup (reachableDocuments store d).
Proof.
  unfold reachableDocuments. apply NoDup_rev, visit_NoDup. constructor.
Qed.

(** The traversal lists the documents reachable along import edges. *)
Lemma reachableDocuments_reaches (d x : DocRef) :
  In x (reachableDocuments store d) <-> reaches (model_getByKind store) d x.
Proof.
  unfold reachableDocuments. rewrite <- in_rev, reaches_model_step.
  assert (Hfuel : List.length (unvisited []) < S (List.length store)).
  { unfold unvisited.
    apply Nat.lt_succ_r.
    eapply Nat.le_trans; [apply List.filter_length_le |].
    now rewrite length_seq. }
  destruct (visit_spec [] d Hfuel) as (_ & H2 & H3 & H4).
  set (result := visit store (S (List.length store)) [] d) in *.
  split.
  - intros Hx. destruct (H3 x Hx) as [[] | (r & [<- | []] & Hrx)]. exact Hrx.
  - intros Hreach. apply clos_rt_rtn1 in Hreach.
    induction Hreach as [| y z Hyz _ IH].
    + apply H2. now left.
    + apply (H4 y IH); auto.
Qed.

Lemma model_getByKind_contract :
  transitive_contract (model_getByKind store).
Proof.
  intros d f. unfold model_getByKind at 1 3, model_getFeatures.
  cbn [queried imported imported_true imported_false flat_map].
  rewrite filter_In, in_flat_map. split.
  - intros ((x & Hx & Hf) & Hk). exists x. split.
    + now apply reachableDocuments_reaches.
    + apply filter_In. split; [| exact Hk]. apply in_or_app. now left.
  - intros (x & Hx & Hf). apply filter_In in Hf as [Hf Hk].
    apply in_app_or in Hf as [Hf | []].
    split; [| exact Hk]. exists x. split; [| exact Hf].
    now apply reachableDocuments_reaches.
Qed.

End DocumentModelFacts.

Lemma ranked_acyclic (store : Store) (rank : DocRef -> nat)
      (results : Results) :
  ranked store rank = true -> acyclic (model_getByKind store) results.
Proof.
  intros Hranked x _ Hcycle.
  assert (Hedge : forall a b, import_edge (model_getByKind store) a b ->
                              rank b < rank a).
  { intros a b Hab. apply importTargets_import_edge in Hab.
    destruct (Nat.lt_ge_cases a (List.length store)) as [Ha | Ha].
    - unfold ranked in Hranked. rewrite forallb_forall in Hranked.
      specialize (Hranked a). rewrite in_seq, forallb_forall in Hranked.
      apply Nat.ltb_lt, Hranked; [lia | exact Hab].
    - rewrite (importTargets_outside store Ha) in Hab. contradiction. }
  assert (Hplus : forall a b,
             clos_trans DocRef (import_edge (model_getByKind store)) a b ->
             rank b < rank a).
  { intros a b H. induction H as [a b H | a b c _ IH1 _ IH2]; [auto | lia]. }
  apply Hplus in Hcycle. lia.
Qed.

(** ** The search roots: soundness, minimality, order, cycles *)

Section RootSetTheorems.

Variable Document_getByKind :
  DocRef -> string -> DocumentQueryOptions -> list Feature.

Hypothesis contract : transitive_contract Document_getByKind.

Let searchRoots (results : Results) : list DocRef :=
  _searchRoots (new_AnalysisResult Document_getByKind results).

Lemma reaches_eq_or_clos_trans (a b : DocRef) :
  reaches Document_getByKind a b ->
  a = b \/ clos_trans DocRef (import_edge Document_getByKind) a b.
Proof.
  intros H. apply clos_rt_rtn1 in H. induction H as [| y z Hyz _ [-> | IH]].
  - now left.
  - right. now apply t_step.
  - right. apply t_trans with y; [exact IH | now apply t_step].
Qed.

Lemma documents_Permutation (results1 results2 : Results) :
  Permutation results1 results2 ->
  forall d, In d (documents results1) <-> In d (documents results2).
Proof.
  intros Hperm d. unfold documents, Map_values.
  split; apply Permutation_in, Permutation_flat_map, Permutation_map;
    [exact Hperm | now apply Permutation_sym].
Qed.

(** C1.  Every Document of the mapping is reachable, along zero or more
    import edges, from a member of the search-root set that the constructor
    computes, when the documents' [getByKind('import', {imported: true})]
    meets the contract of section 4.1. *)
Theorem searchRoots_sound (results : Results) (d : DocRef) :
  In d (documents results) ->
  exists r, In r (_searchRoots (new_AnalysisResult Document_getByKind results))
            /\ reaches Document_getByKind r d.
Proof. now apply searchRoots_cover. Qed.

(** C3.  When the import graph of the project is a DAG, the search roots are
    exactly the Documents of the mapping that no other document imports. *)
Theorem searchRoots_minimal_acyclic (results : Results) :
  acyclic Document_getByKind results ->
  forall d,
    In d (_searchRoots (new_AnalysisResult Document_getByKind results))
    <-> In d (documents results)
        /\ in_degree_zero Document_getByKind results d.
Proof.
  intros Hacyclic d. now apply searchRoots_acyclic.
Qed.

(** C2, amended.  For one mapping filled in two orders: each root of one
    order is on a common import cycle with, or is, a root of the other
    order; when the import graph is a DAG the two root sets have the same
    members; and the single pass is final: a second pass over the roots
    deletes nothing. *)
Theorem searchRoots_order (results1 results2 : Results) :
  Permutation results1 results2 ->
  (forall r, In r (searchRoots results1) ->
             exists r', In r' (searchRoots results2)
                        /\ reaches Document_getByKind r r'
                        /\ reaches Document_getByKind r' r)
  /\ (acyclic Document_getByKind results1 ->
      forall d, In d (searchRoots results1) <-> In d (searchRoots results2))
  /\ trimRoots Document_getByKind (searchRoots results1) (searchRoots results1)
     = searchRoots results1.
Proof.
  intros Hperm.
  pose proof (documents_Permutation Hperm) as Hdocs.
  refine (conj _ (conj _ _)).
  - intros r Hr.
    assert (Hd : In r (documents results2))
      by (apply Hdocs; eapply searchRoots_documents; exact Hr).
    destruct (searchRoots_cover contract results2 r Hd) as (r' & Hr' & Hr'r).
    assert (Hd' : In r' (documents results1))
      by (apply Hdocs; eapply searchRoots_documents; exact Hr').
    destruct (searchRoots_cover contract results1 r' Hd')
      as (r'' & Hr'' & Hr''r').
    assert (E : r'' = r).
    { destruct (reaches_eq_or_clos_trans (rt_trans _ _ _ _ _ Hr''r' Hr'r))
        as [E | Hplus]; [exact E |].
      symmetry. eapply searchRoots_independent; eauto. }
    subst r''. eauto.
  - intros Hacyclic d.
    assert (Hacyclic2 : acyclic Document_getByKind results2).
    { intros x (v & Hv & Hvx). apply Hacyclic. exists v.
      split; [now apply Hdocs | exact Hvx]. }
    unfold searchRoots. rewrite !searchRoots_acyclic by assumption.
    rewrite Hdocs. unfold in_degree_zero, in_project.
    split; intros [Hd Hzero]; (split; [exact Hd |]);
      intros x (v & Hv & Hvx); apply Hzero; exists v;
      (split; [now apply Hdocs | exact Hvx]).
  - apply trimRoots_stable. intros v t Hv Ht Hne Hin.
    assert (E : t = v); [| contradiction].
    eapply searchRoots_independent; eauto.
    now apply imports_target_clos_trans.
Qed.

(** C4, amended.  When no Document of the mapping outside an import cycle
    reaches the cycle, a document of the cycle remains in the search-root
    set; and the inner loop of the constructor never deletes the candidate
    whose imports it goes through. *)
Theorem searchRoots_cycle_survival (results : Results) :
  (forall cycle : list DocRef,
      cycle <> [] ->
      incl cycle (documents results) ->
      (forall a b, In a cycle -> In b cycle ->
                   clos_trans DocRef (import_edge Document_getByKind) a b) ->
      (forall v c, In v (documents results) -> In c cycle ->
                   reaches Document_getByKind v c -> In v cycle) ->
      exists r, In r cycle /\ In r (searchRoots results))
  /\ (forall doc imports potentialRoots,
         In doc potentialRoots ->
         In doc (trimImported doc imports potentialRoots)).
Proof.
  split.
  - intros cycle Hne Hincl _ Hclosed.
    destruct cycle as [| c cycle]; [contradiction |].
    assert (Hc : In c (c :: cycle)) by now left.
    destruct (searchRoots_cover contract results c (Hincl c Hc))
      as (r & Hr & Hrc).
    exists r. split; [| exact Hr].
    apply Hclosed with c; auto.
    eapply searchRoots_documents; exact Hr.
  - intros doc imports potentialRoots Hin.
    apply trimImported_In. split; [exact Hin | reflexivity].
Qed.

End RootSetTheorems.

(** The roots of the three projects. *)
Example searchRoots_dag :
  _searchRoots (new_AnalysisResult (model_getByKind dag_store) dag_results)
  = [0]
  /\ _searchRoots
       (new_AnalysisResult (model_getByKind dag_store) dag_results_reversed)
     = [0].
Proof. split; reflexivity. Qed.

Example model_getByKind_cycle :
  model_getByKind cycle_store 0 "import" imported_true
  = [import_of 0 "b.html" 1; import_of 1 "a.html" 0]
  /\ model_getByKind cycle_store 0 "import" imported_false
     = [import_of 0 "b.html" 1].
Proof. split; reflexivity. Qed.

(** The hypotheses of C1 hold of the project [dag_results]. *)
Lemma searchRoots_sound_witness :
  transitive_contract (model_getByKind dag_store)
  /\ In 2 (documents dag_results)
  /\ exists r,
      In r (_searchRoots
              (new_AnalysisResult (model_getByKind dag_store) dag_results))
      /\ reaches (model_getByKind dag_store) r 2.
Proof.
  split; [apply model_getByKind_contract |].
  split; [simpl; tauto |].
  apply (@searchRoots_sound (model_getByKind dag_store)
                            (model_getByKind_contract dag_store)
                            dag_results 2).
  simpl. tauto.
Defined.

(** The hypotheses of C3 hold of the project [dag_results]. *)
Lemma searchRoots_minimal_acyclic_witness :
  transitive_contract (model_getByKind dag_store)
  /\ acyclic (model_getByKind dag_store) dag_results
  /\ (In 0 (_searchRoots
              (new_AnalysisResult (model_getByKind dag_store) dag_results))
      <-> In 0 (documents dag_results)
          /\ in_degree_zero (model_getByKind dag_store) dag_results 0).
Proof.
  assert (Hacyclic : acyclic (model_getByKind dag_store) dag_results)
    by (apply ranked_acyclic with (rank := fun x => 3 - x); reflexivity).
  split; [apply model_getByKind_contract |].
  split; [exact Hacyclic |].
  apply (@searchRoots_minimal_acyclic (model_getByKind dag_store)
                                      (model_getByKind_contract dag_store)
                                      dag_results Hacyclic 0).
Defined.

(** C2, as the specification states it, fails on a cycle: of two documents
    that import each other the constructor keeps the one the mapping holds
    first, [a.html] in one order and [b.html] in the other. *)
Lemma searchRoots_order_dependent :
  Permutation cycle_results cycle_results_reversed
  /\ transitive_contract (model_getByKind cycle_store)
  /\ _searchRoots
       (new_AnalysisResult (model_getByKind cycle_store) cycle_results)
     = [0]
  /\ _searchRoots
       (new_AnalysisResult (model_getByKind cycle_store)
                           cycle_results_reversed)
     = [1].
Proof.
  split; [apply perm_swap |].
  split; [apply model_getByKind_contract |].
  split; reflexivity.
Qed.

(** The hypothesis of C2, amended, holds of [dag_results] and of the same
    mapping in reverse. *)
Lemma searchRoots_order_witness :
  transitive_contract (model_getByKind dag_store)
  /\ Permutation dag_results dag_results_reversed
  /\ ((forall r,
          In r (_searchRoots
                  (new_AnalysisResult (model_getByKind dag_store)
                                      dag_results)) ->
          exists r',
            In r' (_searchRoots
                     (new_AnalysisResult (model_getByKind dag_store)
                                         dag_results_reversed))
            /\ reaches (model_getByKind dag_store) r r'
            /\ reaches (model_getByKind dag_store) r' r)
      /\ (acyclic (model_getByKind dag_store) dag_results ->
          forall d,
            In d (_searchRoots
                    (new_AnalysisResult (model_getByKind dag_store)
                                        dag_results))
            <-> In d (_searchRoots
                        (new_AnalysisResult (model_getByKind dag_store)
                                            dag_results_reversed)))
      /\ trimRoots (model_getByKind dag_store)
                   (_searchRoots
                      (new_AnalysisResult (model_getByKind dag_store)
                                          dag_results))
                   (_searchRoots
                      (new_AnalysisResult (model_getByKind dag_store)
                                          dag_results))
         = _searchRoots
             (new_AnalysisResult (model_getByKind dag_store) dag_results)).
Proof.
  split; [apply model_getByKind_contract |].
  split; [apply Permutation_rev |].
  apply (@searchRoots_order (model_getByKind dag_store)
                            (model_getByKind_contract dag_store)
                            dag_results dag_results_reversed).
  apply Permutation_rev.
Defined.

(** C4, as the specification states it, fails for a cycle that is imported
    from outside: [index.html] imports into the cycle of [a.html] and
    [b.html], and is the only root. *)
Lemma searchRoots_cycle_below_entry :
  transitive_contract (model_getByKind entry_store)
  /\ import_edge (model_getByKind entry_store) 1 2
  /\ import_edge (model_getByKind entry_store) 2 1
  /\ In 1 (documents entry_results)
  /\ In 2 (documents entry_results)
  /\ _searchRoots
       (new_AnalysisResult (model_getByKind entry_store) entry_results)
     = [0].
Proof.
  split; [apply model_getByKind_contract |].
  split; [apply importTargets_import_edge; simpl; tauto |].
  split; [apply importTargets_import_edge; simpl; tauto |].
  split; [simpl; tauto |].
  split; [simpl; tauto | reflexivity].
Qed.

(** The hypotheses of C4, amended, hold of the project of two documents that
    import each other. *)
Lemma searchRoots_cycle_survival_witness :
  transitive_contract (model_getByKind cycle_store)
  /\ [0; 1] <> []
  /\ incl [0; 1] (documents cycle_results)
  /\ import_edge (model_getByKind cycle_store) 0 1
  /\ import_edge (model_getByKind cycle_store) 1 0
  /\ exists r,
      In r [0; 1]
      /\ In r (_searchRoots
                 (new_AnalysisResult (model_getByKind cycle_store)
                                     cycle_results)).
Proof.
  assert (H01 : import_edge (model_getByKind cycle_store) 0 1)
    by (apply importTargets_import_edge; simpl; tauto).
  assert (H10 : import_edge (model_getByKind cycle_store) 1 0)
    by (apply importTargets_import_edge; simpl; tauto).
  split; [apply model_getByKind_contract |].
  split; [discriminate |].
  split; [apply incl_refl |].
  split; [exact H01 |].
  split; [exact H10 |].
  apply (proj1 (@searchRoots_cycle_survival
                  (model_getByKind cycle_store)
                  (model_getByKind_contract cycle_store)
                  cycle_results)).
  - discriminate.
  - apply incl_refl.
  - intros a b [<- | [<- | []]] [<- | [<- | []]].
    + apply t_trans with 1; now apply t_step.
    + now apply t_step.
    + now apply t_step.
    + apply t_trans with 0; now apply t_step.
  - intros v c Hv _ _. exact Hv.
Defined.

(** ** The queries *)

Lemma documents_without_warnings (results : Results) :
  documents (without_warnings results) = documents results.
Proof.
  unfold documents, Map_values, without_warnings.
  induction results as [| [key [d | w]] results IH]; simpl; congruence.
Qed.

Lemma warnings_In (results : Results) (w : Warning) :
  In w (warnings results) <-> exists key, In (key, IsWarning w) results.
Proof.
  unfold warnings, Map_values. rewrite in_flat_map. split.
  - intros (r & Hr & Hw). apply in_map_iff in Hr as ([key v] & <- & Hin).
    simpl in Hw. destruct v as [d | w']; [contradiction |].
    destruct Hw as [<- | []]. now exists key.
  - intros (key & Hin). exists (IsWarning w). split; [| now left].
    apply in_map_iff. now exists (key, IsWarning w).
Qed.

Section QueryTheorems.

Variable Document_getByKind :
  DocRef -> string -> DocumentQueryOptions -> list Feature.
Variable Document_getById :
  DocRef -> string -> string -> DocumentQueryOptions -> list Feature.
Variable Document_getFeatures : DocRef -> DocumentQueryOptions -> list Feature.
Variable Document_getWarnings : DocRef -> DocumentQueryOptions -> list Warning.

(** C5.  [getOnlyAtId] throws when [getById] finds more than one Feature,
    with a message that gives the kind, the identifier and the number
    found; it returns [undefined] when [getById] finds none, and the Feature
    when it finds exactly one. *)
Theorem getOnlyAtId_uniqueness (this : AnalysisResult)
        (kind identifier : string) (options : option QueryOptions) :
  let found := getById Document_getById this kind identifier options in
  let answer := getOnlyAtId Document_getById this kind identifier options in
  (1 < List.length found ->
   answer = Throw ("Expected to find at most one " ++ kind ++ " with id "
                   ++ identifier ++ " but found "
                   ++ number_to_string (List.length found) ++ ".")%string)
  /\ (List.length found = 0 -> answer = Return None)
  /\ (List.length found = 1 ->
      exists feature, found = [feature] /\ answer = Return (Some feature)).
Proof.
  cbv zeta. unfold getOnlyAtId.
  set (found := getById _ _ _ _ _).
  refine (conj _ (conj _ _)).
  - intros Hmany. apply Nat.ltb_lt in Hmany. now rewrite Hmany.
  - intros Hnone. rewrite Hnone.
    destruct found; [reflexivity | discriminate].
  - intros Hone. rewrite Hone.
    destruct found as [| feature [| ? ?]]; try discriminate.
    exists feature. split; reflexivity.
Qed.

(** C6.  [getWarnings] returns, without duplicates, exactly the top-level
    Warnings of the mapping and the warnings that the search roots answer
    with, queried with [imported: true]; and the top-level Warnings
    contribute nothing to [getByKind] and [getFeatures], which answer the
    same on the mapping without them. *)
Theorem getWarnings_aggregation (results : Results)
        (options : option QueryOptions) :
  let this := new_AnalysisResult Document_getByKind results in
  let documents_only :=
    new_AnalysisResult Document_getByKind (without_warnings results) in
  NoDup (getWarnings Document_getWarnings this options)
  /\ (forall w,
         In w (getWarnings Document_getWarnings this options) <->
         (exists url, In (url, IsWarning w) results)
         \/ (exists root,
                In root (_searchRoots this)
                /\ In w (Document_getWarnings
                           root (_getDocumentQueryOptions options))))
  /\ imported (_getDocumentQueryOptions options) = Some true
  /\ (forall kind,
         getByKind Document_getByKind documents_only kind options
         = getByKind Document_getByKind this kind options)
  /\ getFeatures Document_getFeatures documents_only options
     = getFeatures Document_getFeatures this options.
Proof.
  cbv zeta. refine (conj _ (conj _ (conj _ (conj _ _)))).
  - unfold getWarnings. apply fold_addAll_NoDup, Set_new_NoDup.
  - intros w. unfold getWarnings.
    rewrite (fold_addAll_In Warning_eq_dec
               (fun doc => Set_new Warning_eq_dec
                             (Document_getWarnings
                                doc (_getDocumentQueryOptions options)))).
    rewrite Set_new_In. cbn [_results new_AnalysisResult].
    rewrite warnings_In.
    split; (intros [H | (root & Hroot & Hw)]; [now left | right]);
      exists root; (split; [exact Hroot |]).
    + now apply Set_new_In in Hw.
    + now apply Set_new_In.
  - reflexivity.
  - intros kind. unfold getByKind, new_AnalysisResult. cbn [_searchRoots].
    now rewrite documents_without_warnings.
  - unfold getFeatures, new_AnalysisResult. cbn [_searchRoots].
    now rewrite documents_without_warnings.
Qed.

End QueryTheorems.

(** The project [dag_results] has one top-level Warning and one warning in
    a document: [getWarnings] returns both, once each, call after call. *)
Example getWarnings_dag :
  let this := new_AnalysisResult (model_getByKind dag_store) dag_results in
  getWarnings (model_getWarnings dag_store) this None
  = [ {| warning_ref := 0; code := "parse-error";
         message := "could not parse" |};
      {| warning_ref := 1; code := "multiple-global-declarations";
         message := "declared twice" |} ]
  /\ getWarnings (model_getWarnings dag_store) this None
     = getWarnings (model_getWarnings dag_store) this None.
Proof. split; reflexivity. Qed.

(** One element [x-foo] in the project: [getOnlyAtId] returns it; no
    [x-bar]: [undefined]. *)
Example getOnlyAtId_dag :
  let this := new_AnalysisResult (model_getByKind dag_store) dag_results in
  getOnlyAtId (model_getById dag_store) this "element" "x-foo" None
  = Return (Some {| feature_ref := 3; kind := "element";
                    identifier := Some "x-foo"; document := None |})
  /\ getOnlyAtId (model_getById dag_store) this "element" "x-bar" None
     = Return None.
Proof. split; reflexivity. Qed.

(** Two imports of [b.html] in the project: [getOnlyAtId] throws, and the
    message tells the kind, the identifier and the number. *)
Example getOnlyAtId_dag_throws :
  let this := new_AnalysisResult (model_getByKind dag_store) dag_results in
  getOnlyAtId (model_getById dag_store) this "import" "b.html" None
  = Throw "Expected to find at most one import with id b.html but found 2.".
Proof. reflexivity. Qed.

(** The two examples of the specification for the remapper. *)
Example correctSourceLocation_first_line :
  correctSourceLocation
    (Some {| line := 0; column := 5; file := None |})
    (Some {| offset_line := 10; col := 3; filename := None |})
  = Some {| line := 10; column := 8; file := None |}.
Proof. reflexivity. Qed.

Example correctSourceLocation_later_line :
  correctSourceLocation
    (Some {| line := 2; column := 5; file := None |})
    (Some {| offset_line := 10; col := 3; filename := None |})
  = Some {| line := 12; column := 5; file := None |}.
Proof. reflexivity. Qed.

(* ================================================================== *)
(** * Part III: the AST utilities *)
(* ================================================================== *)

(** ** Strings, as the utilities handle them *)

Fixpoint string_drop (n : nat) (s : string) : string :=
  match n, s with
  | S n', String _ rest => string_drop n' rest
  | _, _ => s
  end.

(** [s.slice(start)]: from [start] to the end; a negative [start] counts
    from the end. *)
Definition slice (s : string) (start : Z) : string :=
  let len := Z.of_nat (String.length s) in
  let from := if (start <? 0)%Z then Z.max (len + start) 0
              else Z.min start len in
  string_drop (Z.to_nat from) s.

(** The index of the last [c] among the characters of [s] that stand at
    [index] and after, [found] when there is none. *)
Fixpoint lastIndexOf_from (c : ascii) (s : string) (index found : Z) : Z :=
  match s with
  | EmptyString => found
  | String a rest =>
      lastIndexOf_from c rest (index + 1)
                       (if Ascii.eqb a c then index else found)
  end.

(** [s.lastIndexOf(c)] for a text [c] of one character: -1 when [s] has no
    [c]. *)
Definition lastIndexOf (s : string) (c : ascii) : Z :=
  lastIndexOf_from c s 0 (-1).

(** [s.startsWith(text)] *)
Definition startsWith (s text : string) : bool := String.prefix text s.

(** [s.endsWith(text)] *)
Definition endsWith (s text : string) : bool :=
  (String.length text <=? String.length s)%nat
  && String.eqb (string_drop (String.length s - String.length text) s) text.

(** [s.substr(0, length)] *)
Definition substr0 (s : string) (length : nat) : string :=
  substring 0 length s.

(** An operand of [+] between strings: [undefined] reads ["undefined"]. *)
Definition string_of_optional (s : option string) : string :=
  match s with Some text => text | None => "undefined" end.

(** ** Privacy *)

(** ['public' | 'private' | 'protected'] *)
Inductive Privacy : Type :=
| IsPublic
| IsPrivate
| IsProtected.

(** [configurationProperties], in the order of the source. *)
Definition configurationProperties : list string :=
  [ "attached"; "attributeChanged"; "beforeRegister"; "configure";
    "constructor"; "created"; "detached"; "enableCustomStyleProperties";
    "extends"; "hostAttributes"; "is"; "listeners"; "mixins"; "observers";
    "properties"; "ready"; "registered" ].

(** [set.has(x)] on a set of strings. *)
Definition Set_has (set : list string) (x : string) : bool :=
  existsb (String.eqb x) set.

Section Privacy.

(** [jsdoc.Annotation] and [jsdoc.getPrivacy], of a module that is not among
    the sources. *)
Variable Annotation : Type.
Variable getPrivacy : option Annotation -> option Privacy.

(** [getOrInferPrivacy(name, annotation, defaultPrivacy = 'public')] *)
Definition getOrInferPrivacy (name : string) (annotation : option Annotation)
           (defaultPrivacy : option Privacy) : Privacy :=
  let defaultPrivacy :=
    match defaultPrivacy with Some p => p | None => IsPublic end in
  let explicitPrivacy := getPrivacy annotation in
  let specificName := slice name (lastIndexOf name "." + 1) in
  match explicitPrivacy with
  | Some privacy => privacy
  | None =>
      if startsWith specificName "__" then IsPrivate
      else if startsWith specificName "_" then IsProtected
      else if endsWith specificName "_" then IsPrivate
      else if Set_has configurationProperties specificName then IsProtected
      else defaultPrivacy
  end.

End Privacy.

(** ** Nodes *)

Module estree.

(** The value of a [Literal].  A number and a regular expression are held as
    the text that [+] with a string turns them into; [LUndefined] is the
    missing value of a regular expression that the engine does not
    support. *)
Inductive LiteralValue : Type :=
| LString (text : string)
| LBoolean (b : bool)
| LNull
| LNumber (text : string)
| LRegExp (text : string)
| LUndefined.

(** An [estree.Node], as far as the utilities look into it: the three types
    of node they read fields of, and [OtherNode] for a node of any other
    type, with its [type]. *)
Inductive Node : Type :=
| Identifier (name : string)
| Literal (value : LiteralValue)
| MemberExpression (object property : Node)
| OtherNode (type : string).

(** An [estree.Property], as far as read: [{key, value}]. *)
Record Property : Type := {
  key : Node;
  value : Node
}.

(** [estree.Position] and the [loc] of a node or of a comment. *)
Record Position : Type := {
  line : Z;
  column : Z
}.

Record SourceLocation : Type := {
  start : Position;
  end_ : Position
}.



End estree.

(** [node.type] *)
Definition node_type (node : estree.Node) : string :=
  match node with
  | estree.Identifier _ => "Identifier"
  | estree.Literal _ => "Literal"
  | estree.MemberExpression _ _ => "MemberExpression"
  | estree.OtherNode type => type
  end.

(** The text that [+] with a string turns a value into. *)
Definition string_of_value (value : estree.LiteralValue) : string :=
  match value with
  | estree.LString text => text
  | estree.LBoolean true => "true"
  | estree.LBoolean false => "false"
  | estree.LNull => "null"
  | estree.LNumber text => text
  | estree.LRegExp text => text
  | estree.LUndefined => "undefined"
  end.

(** [typeof value] *)
Definition typeof (value : estree.LiteralValue) : string :=
  match value with
  | estree.LString _ => "string"
  | estree.LBoolean _ => "boolean"
  | estree.LNull => "object"
  | estree.LNumber _ => "number"
  | estree.LRegExp _ => "object"
  | estree.LUndefined => "undefined"
  end.

(** [objectKeyToString(key)] *)
Fixpoint objectKeyToString (key : estree.Node) : option string :=
  match key with
  | estree.Identifier name => Some name
  | estree.Literal value => Some ("" ++ string_of_value value)%string
  | estree.MemberExpression object property =>
      Some (string_of_optional (objectKeyToString object) ++ "."
            ++ string_of_optional (objectKeyToString property))%string
  | estree.OtherNode _ => None
  end.

(** [path[path.length - 1]] *)
Definition last_of (path : list string) : option string :=
  nth_error path (List.length path - 1).

(** [matchesCallExpression(expression, path)].  The typings give every
    MemberExpression an [object] and a [property], so the first test of the
    source is false; [console.assert(path.length >= 2)] reports and goes on,
    and the theorems take what it asserts as their hypothesis.  A node that
    is no MemberExpression is outside the type of the parameter. *)
Fixpoint matchesCallExpression (expression : estree.Node) (path : list string)
  : bool :=
  match expression with
  | estree.MemberExpression object property =>
      match property with
      | estree.Identifier name =>
          match last_of path with
          | Some final =>
              if negb (String.eqb name final) then false
              else
                match object with
                | estree.Identifier object_name =>
                    if Nat.eqb (List.length path) 2
                    then match nth_error path 0 with
                         | Some first => String.eqb object_name first
                         | None => false
                         end
                    else false
                | estree.MemberExpression _ _ =>
                    if Nat.ltb 2 (List.length path)
                    then matchesCallExpression object (removelast path)
                    else false
                | _ => false
                end
          | None => false
          end
      | _ => false
      end
  | _ => false
  end.

(** [getPropertyValue(node, name)], on the [properties] of the node. *)
Fixpoint getPropertyValue (properties : list estree.Property)
         (name : string) : option estree.Node :=
  match properties with
  | [] => None
  | property :: rest =>
      match objectKeyToString (estree.key property) with
      | Some text =>
          if String.eqb text name then Some (estree.value property)
          else getPropertyValue rest name
      | None => getPropertyValue rest name
      end
  end.

(** [isFunctionType(node)] *)
Definition isFunctionType (node : estree.Node) : bool :=
  String.eqb (node_type node) "ArrowFunctionExpression"
  || String.eqb (node_type node) "FunctionExpression"
  || String.eqb (node_type node) "FunctionDeclaration".

(** [CLOSURE_CONSTRUCTOR_MAP] *)
Definition CLOSURE_CONSTRUCTOR_MAP : list (string * string) :=
  [("Boolean", "boolean"); ("Number", "number"); ("String", "string")].

(** [map.get(key)] on a map from strings to strings. *)
Fixpoint Map_get_string (map : list (string * string)) (k : string)
  : option string :=
  match map with
  | [] => None
  | (k', v) :: rest => if String.eqb k' k then Some v else Map_get_string rest k
  end.

(** [a || b] for an optional string [a] and a string [b]. *)
Definition or_default (a : option string) (b : string) : string :=
  match a with
  | Some text => if truthy text then text else b
  | None => b
  end.

(** [Severity] *)
Inductive Severity : Type :=
| ERROR
| WARNING
| INFO.

(** [/Expression$/] *)
Definition ENDS_IN_EXPRESSION : RegExp :=
  Concat (Literal "Expression") AssertEnd.

(** The [Warning] that [closureType] throws, with the fields it is built
    from. *)
Record ScanWarning (SourceRange ParsedDocument : Type) : Type := {
  scan_code : string;
  scan_message : string;
  scan_severity : Severity;
  scan_sourceRange : SourceRange;
  scan_parsedDocument : ParsedDocument
}.

(** [closureType(node, sourceRange, document)]: the type, or the warning
    of the [WarningCarryingException] thrown. *)
Definition closureType {SourceRange ParsedDocument : Type}
           (node : estree.Node)
           (sourceRange : SourceRange) (document : ParsedDocument)
  : string + ScanWarning SourceRange ParsedDocument :=
  if test ENDS_IN_EXPRESSION (node_type node)
  then inl (substr0 (node_type node) (String.length (node_type node) - 10))
  else
    match node with
    | estree.Literal value => inl (typeof value)
    | estree.Identifier name =>
        inl (or_default (Map_get_string CLOSURE_CONSTRUCTOR_MAP name) name)
    | _ =>
        inr {| scan_code := "no-closure-type";
               scan_message :=
                 ("Unable to determine closure type for expression of type "
                  ++ node_type node)%string;
               scan_severity := WARNING;
               scan_sourceRange := sourceRange;
               scan_parsedDocument := document |}
    end.

(** ** Leading comments *)




(* ================================================================== *)
(** * Part IV: further properties *)
(* ================================================================== *)

(** ** Remapping: nesting, the zero offset, order *)





(** X2.  The offset of a document that starts where its container starts
    and names no file changes no location; and an absent location stays
    absent whatever the offset. *)
Theorem correctSourceLocation_zero_offset :
  (forall loc : SourceLocation,
      correctSourceLocation
        (Some loc)
        (Some {| offset_line := 0; col := 0; filename := None |})
      = Some loc)
  /\ (forall offset : option LocationOffset,
         correctSourceLocation None offset = None).
Proof.
  split.
  - intros [l c f]. unfold correctSourceLocation.
    cbn [line column file offset_line col filename]. f_equal. f_equal.
    + lia.
    + destruct (l =? 0)%Z; lia.
    + destruct f; reflexivity.
  - intros [offset |]; reflexivity.
Qed.



(** ** External paths, joined *)

Lemma path_components_join (p q : string) :
  path_components (p ++ String "/" q)
  = path_components p ++ path_components q.
Proof.
  induction p as [| c p IH]; cbn [String.append path_components].
  - reflexivity.
  - destruct (Ascii.eqb c "/").
    + now rewrite IH.
    + rewrite IH. pose proof (path_components_nonempty p) as Hne.
      destruct (path_components p); [contradiction | reflexivity].
Qed.

(** X4.  A path made of two paths with a slash between them is external
    exactly when one of the two is: what surrounds an external directory
    does not matter. *)
Theorem isExternal_join (p q : string) :
  isExternal (p ++ "/" ++ q) = isExternal p || isExternal q.
Proof.
  rewrite !isExternal_spec_isExternal. unfold spec_isExternal.
  change ("/" ++ q)%string with (String "/" q).
  now rewrite path_components_join, existsb_app.
Qed.

(** ** The Set operations and the lookup *)

(** X5.  [addAll] leaves the entries of [set1] where they are and appends,
    each once, the values of [set2] that [set1] lacks; adding the same
    values again changes nothing. *)
Theorem addAll_appends {A : Type}
        (eq_dec : forall x y : A, {x = y} + {x <> y}) (set1 set2 : list A) :
  (exists added,
      addAll eq_dec set1 set2 = set1 ++ added
      /\ NoDup added
      /\ forall x, In x added <-> In x set2 /\ ~ In x set1)
  /\ addAll eq_dec (addAll eq_dec set1 set2) set2 = addAll eq_dec set1 set2.
Proof.
  split.
  - unfold addAll. revert set1.
    induction set2 as [| y set2 IH]; intros set1; cbn [fold_left].
    + exists []. rewrite app_nil_r.
      split; [reflexivity |]. split; [constructor |].
      intros x. split; [intros [] | intros [[] _]].
    + destruct (IH (Set_add eq_dec set1 y)) as (added & Heq & Hnd & Hin).
      unfold Set_add in *.
      destruct (in_dec eq_dec y set1) as [Hy | Hy].
      * exists added. split; [exact Heq |]. split; [exact Hnd |].
        intros x. rewrite Hin. simpl. split.
        -- intros [H1 H2]. auto.
        -- intros [[<- | H1] H2]; [contradiction | auto].
      * exists (y :: added). rewrite Heq, <- app_assoc.
        split; [reflexivity |]. split.
        -- constructor; [| exact Hnd]. intros H. apply Hin in H as [_ H].
           apply H, in_or_app. right. now left.
        -- intros x. simpl. rewrite Hin, in_app_iff. simpl. split.
           ++ intros [<- | [H1 H2]]; [auto |]. split; [auto |].
              intros H. apply H2. now left.
           ++ intros [[<- | H1] H2]; [now left |].
              destruct (eq_dec y x) as [E | N]; [now left | right].
              split; [exact H1 |]. intros [H | [H | []]]; auto.
  - assert (Hstable : forall (s2 s1 : list A),
               incl s2 s1 -> addAll eq_dec s1 s2 = s1).
    { unfold addAll. induction s2 as [| y s2 IH]; intros s1 Hincl;
        cbn [fold_left]; [reflexivity |].
      unfold Set_add at 2.
      destruct (in_dec eq_dec y s1) as [Hy | Hy].
      - apply IH. intros x Hx. apply Hincl. now right.
      - exfalso. apply Hy, Hincl. now left. }
    apply Hstable. intros x Hx. apply addAll_In. now right.
Qed.

Lemma Map_get_In (results : Results) (url : string) (v : DocumentOrWarning) :
  NoDup (map fst results) ->
  Map_get results url = Some v <-> In (url, v) results.
Proof.
  induction results as [| [k w] results IH]; intros Hnd; simpl.
  - split; [discriminate | contradiction].
  - inversion Hnd as [| ? ? Hk Hrest]; subst.
    destruct (String.eqb_spec k url) as [-> | Hne].
    + split.
      * intros [= ->]. now left.
      * intros [[= ->] | Hin]; [reflexivity |].
        exfalso. apply Hk. apply in_map_iff. now exists (url, v).
    + rewrite (IH Hrest). split; [now right |].
      intros [[= -> ->] | Hin]; [contradiction | exact Hin].
Qed.

Lemma Map_get_None (results : Results) (url : string) :
  Map_get results url = None <-> ~ In url (map fst results).
Proof.
  induction results as [| [k w] results IH]; simpl.
  - tauto.
  - destruct (String.eqb_spec k url) as [-> | Hne].
    + split; [discriminate | intros H; exfalso; auto].
    + rewrite IH. tauto.
Qed.

(** X6.  [getDocument] finds what the mapping holds: for a mapping with one
    entry per URL, it returns the Document or Warning of an URL exactly
    when the mapping has that entry, and [undefined] exactly for the URLs
    the mapping has no entry for. *)
Theorem getDocument_lookup
        (Document_getByKind :
           DocRef -> string -> DocumentQueryOptions -> list Feature)
        (results : Results) :
  NoDup (map fst results) ->
  forall url,
    (forall entry,
        getDocument (new_AnalysisResult Document_getByKind results) url
        = Some entry
        <-> In (url, entry) results)
    /\ (getDocument (new_AnalysisResult Document_getByKind results) url = None
        <-> ~ In url (map fst results)).
Proof.
  intros Hnd url. unfold getDocument. cbn [_results new_AnalysisResult].
  split; [intros entry; now apply Map_get_In | apply Map_get_None].
Qed.

Lemma getDocument_lookup_witness :
  NoDup (map fst dag_results)
  /\ (forall entry,
         getDocument
           (new_AnalysisResult (model_getByKind dag_store) dag_results)
           "a.html"
         = Some entry
         <-> In ("a.html", entry) dag_results)
  /\ (getDocument
        (new_AnalysisResult (model_getByKind dag_store) dag_results) "a.html"
      = None
      <-> ~ In "a.html" (map fst dag_results)).
Proof.
  assert (Hnd : NoDup (map fst dag_results)).
  { simpl. repeat constructor; simpl; intuition discriminate. }
  split; [exact Hnd |].
  apply (@getDocument_lookup (model_getByKind dag_store) dag_results Hnd).
Defined.

(** ** The queries over the whole project *)

(** A query of a document answers with all that it answers with for a
    document it reaches: what following the imports means for a query. *)
Definition answers_grow {T : Type}
           (Document_getByKind :
              DocRef -> string -> DocumentQueryOptions -> list Feature)
           (query : DocRef -> list T) : Prop :=
  forall r d, reaches Document_getByKind r d -> incl (query d) (query r).

(** X7.  The features that [getByKind], [getById] and [getFeatures] return
    are those that some search root answers with, queried with
    [imported: true], and none of them is returned twice. *)
Theorem queries_deduplicated
        (Document_getByKind :
           DocRef -> string -> DocumentQueryOptions -> list Feature)
        (Document_getById :
           DocRef -> string -> string -> DocumentQueryOptions -> list Feature)
        (Document_getFeatures :
           DocRef -> DocumentQueryOptions -> list Feature)
        (this : AnalysisResult) (kind identifier : string)
        (options : option QueryOptions) :
  let docQueryOptions := _getDocumentQueryOptions options in
  (NoDup (getByKind Document_getByKind this kind options)
   /\ forall f,
       In f (getByKind Document_getByKind this kind options) <->
       exists root, In root (_searchRoots this)
                    /\ In f (Document_getByKind root kind docQueryOptions))
  /\ (NoDup (getById Document_getById this kind identifier options)
      /\ forall f,
          In f (getById Document_getById this kind identifier options) <->
          exists root,
            In root (_searchRoots this)
            /\ In f (Document_getById root kind identifier docQueryOptions))
  /\ (NoDup (getFeatures Document_getFeatures this options)
      /\ forall f,
          In f (getFeatures Document_getFeatures this options) <->
          exists root, In root (_searchRoots this)
                       /\ In f (Document_getFeatures root docQueryOptions))
  /\ imported docQueryOptions = Some true.
Proof.
  cbv zeta. unfold getByKind, getById, getFeatures.
  repeat split;
    try (apply fold_addAll_NoDup; constructor);
    try (intros H; apply fold_addAll_In in H as [[] | H]; exact H);
    try (intros H; apply fold_addAll_In; right; exact H).
Qed.

Section WholeProject.

Variable Document_getByKind :
  DocRef -> string -> DocumentQueryOptions -> list Feature.
Variable Document_getById :
  DocRef -> string -> string -> DocumentQueryOptions -> list Feature.
Variable Document_getFeatures : DocRef -> DocumentQueryOptions -> list Feature.
Variable Document_getWarnings : DocRef -> DocumentQueryOptions -> list Warning.

Hypothesis contract : transitive_contract Document_getByKind.

(** The merge over the search roots gives what the merge over all the
    Documents of the mapping would. *)
Lemma roots_answer_for_all {T : Type}
      (eq_dec : forall x y : T, {x = y} + {x <> y})
      (query : DocRef -> list T) (results : Results) (init : list T)
      (y : T) :
  answers_grow Document_getByKind query ->
  In y (fold_left (fun result doc => addAll eq_dec result (query doc))
                  (_searchRoots
                     (new_AnalysisResult Document_getByKind results))
                  init)
  <-> In y init \/ exists d, In d (documents results) /\ In y (query d).
Proof.
  intros Hgrow. rewrite fold_addAll_In. split.
  - intros [H | (root & Hroot & Hy)]; [now left | right].
    exists root. split; [| exact Hy].
    eapply searchRoots_documents; exact Hroot.
  - intros [H | (d & Hd & Hy)]; [now left | right].
    destruct (searchRoots_cover contract results d Hd) as (r & Hr & Hrd).
    exists r. split; [exact Hr |]. now apply (Hgrow r d).
Qed.

(** X8.  Trimming the candidates down to the search roots loses nothing:
    each query of the project returns what the Documents of the mapping,
    all of them, answer with when queried with [imported: true], and
    [getWarnings] the top-level Warnings besides. *)
Theorem queries_over_all_documents (results : Results)
        (kind identifier : string) (options : option QueryOptions) :
  let this := new_AnalysisResult Document_getByKind results in
  let docQueryOptions := _getDocumentQueryOptions options in
  (answers_grow Document_getByKind
                (fun d => Document_getByKind d kind docQueryOptions) ->
   forall f,
     In f (getByKind Document_getByKind this kind options) <->
     exists d, In d (documents results)
               /\ In f (Document_getByKind d kind docQueryOptions))
  /\ (answers_grow Document_getByKind
                   (fun d => Document_getById d kind identifier
                                              docQueryOptions) ->
      forall f,
        In f (getById Document_getById this kind identifier options) <->
        exists d, In d (documents results)
                  /\ In f (Document_getById d kind identifier docQueryOptions))
  /\ (answers_grow Document_getByKind
                   (fun d => Document_getFeatures d docQueryOptions) ->
      forall f,
        In f (getFeatures Document_getFeatures this options) <->
        exists d, In d (documents results)
                  /\ In f (Document_getFeatures d docQueryOptions))
  /\ (answers_grow Document_getByKind
                   (fun d => Document_getWarnings d docQueryOptions) ->
      forall w,
        In w (getWarnings Document_getWarnings this options) <->
        (exists url, In (url, IsWarning w) results)
        \/ exists d, In d (documents results)
                     /\ In w (Document_getWarnings d docQueryOptions)).
Proof.
  cbv zeta. unfold getByKind, getById, getFeatures, getWarnings.
  refine (conj _ (conj _ (conj _ _))); intros Hgrow y.
  - rewrite roots_answer_for_all by exact Hgrow. simpl. tauto.
  - rewrite roots_answer_for_all by exact Hgrow. simpl. tauto.
  - rewrite roots_answer_for_all by exact Hgrow. simpl. tauto.
  - assert (Hgrow' : answers_grow Document_getByKind
                       (fun d => Set_new Warning_eq_dec
                                   (Document_getWarnings
                                      d (_getDocumentQueryOptions options)))).
    { intros r d Hrd w Hw. apply Set_new_In. apply Set_new_In in Hw.
      now apply (Hgrow r d). }
    rewrite roots_answer_for_all by exact Hgrow'.
    rewrite Set_new_In. cbn [_results new_AnalysisResult].
    rewrite warnings_In.
    split; (intros [H | (d & Hd & Hw)]; [now left | right]); exists d;
      (split; [exact Hd |]).
    + now apply Set_new_In in Hw.
    + now apply Set_new_In.
Qed.

(** X9.  The order in which the mapping was filled changes the search roots
    of a cycle, and no answer: for one mapping in two orders each query
    returns the same features, and [getWarnings] the same warnings. *)
Theorem queries_order_independent (results1 results2 : Results)
        (kind identifier : string) (options : option QueryOptions) :
  Permutation results1 results2 ->
  let this1 := new_AnalysisResult Document_getByKind results1 in
  let this2 := new_AnalysisResult Document_getByKind results2 in
  let docQueryOptions := _getDocumentQueryOptions options in
  (answers_grow Document_getByKind
                (fun d => Document_getByKind d kind docQueryOptions) ->
   forall f,
     In f (getByKind Document_getByKind this1 kind options) <->
     In f (getByKind Document_getByKind this2 kind options))
  /\ (answers_grow Document_getByKind
                   (fun d => Document_getById d kind identifier
                                              docQueryOptions) ->
      forall f,
        In f (getById Document_getById this1 kind identifier options) <->
        In f (getById Document_getById this2 kind identifier options))
  /\ (answers_grow Document_getByKind
                   (fun d => Document_getFeatures d docQueryOptions) ->
      forall f,
        In f (getFeatures Document_getFeatures this1 options) <->
        In f (getFeatures Document_getFeatures this2 options))
  /\ (answers_grow Document_getByKind
                   (fun d => Document_getWarnings d docQueryOptions) ->
      forall w,
        In w (getWarnings Document_getWarnings this1 options) <->
        In w (getWarnings Document_getWarnings this2 options)).
Proof.
  intros Hperm. cbv zeta.
  pose proof (documents_Permutation Hperm) as Hdocs.
  assert (Hwarn : forall w, In w (warnings results1)
                            <-> In w (warnings results2)).
  { intros w. unfold warnings, Map_values.
    split; apply Permutation_in, Permutation_flat_map, Permutation_map;
      [exact Hperm | now apply Permutation_sym]. }
  unfold getByKind, getById, getFeatures, getWarnings.
  refine (conj _ (conj _ (conj _ _))); intros Hgrow y.
  - rewrite !roots_answer_for_all by exact Hgrow.
    now setoid_rewrite Hdocs.
  - rewrite !roots_answer_for_all by exact Hgrow.
    now setoid_rewrite Hdocs.
  - rewrite !roots_answer_for_all by exact Hgrow.
    now setoid_rewrite Hdocs.
  - assert (Hgrow' : answers_grow Document_getByKind
                       (fun d => Set_new Warning_eq_dec
                                   (Document_getWarnings
                                      d (_getDocumentQueryOptions options)))).
    { intros r d Hrd w Hw. apply Set_new_In. apply Set_new_In in Hw.
      now apply (Hgrow r d). }
    rewrite !roots_answer_for_all by exact Hgrow'.
    cbn [_results new_AnalysisResult]. rewrite !Set_new_In, Hwarn.
    now setoid_rewrite Hdocs.
Qed.

End WholeProject.

(** The queries of the model of Document answer with more from a document
    than from the documents it reaches. *)
Lemma queried_grows (store : Store) (options : DocumentQueryOptions)
      (r d : DocRef) :
  imported options = Some true ->
  reaches (model_getByKind store) r d ->
  incl (queried store d options) (queried store r options).
Proof.
  intros Himported Hrd x. unfold queried. rewrite Himported.
  rewrite !reachableDocuments_reaches. intros Hdx.
  now apply rt_trans with d.
Qed.

Lemma model_answers_grow (store : Store) (kind identifier : string)
      (options : DocumentQueryOptions) :
  imported options = Some true ->
  answers_grow (model_getByKind store)
               (fun d => model_getByKind store d kind options)
  /\ answers_grow (model_getByKind store)
                  (fun d => model_getById store d kind identifier options)
  /\ answers_grow (model_getByKind store)
                  (fun d => model_getFeatures store d options)
  /\ answers_grow (model_getByKind store)
                  (fun d => model_getWarnings store d options).
Proof.
  intros Himported.
  assert (Hfeatures : answers_grow (model_getByKind store)
                        (fun d => model_getFeatures store d options)).
  { intros r d Hrd f. unfold model_getFeatures. rewrite !in_flat_map.
    intros (x & Hx & Hf). exists x. split; [| exact Hf].
    now apply (@queried_grows store options r d Himported Hrd). }
  assert (Hkind : answers_grow (model_getByKind store)
                    (fun d => model_getByKind store d kind options)).
  { intros r d Hrd f. unfold model_getByKind. rewrite !filter_In.
    intros [Hf Hk]. split; [| exact Hk]. now apply (Hfeatures r d). }
  refine (conj Hkind (conj _ (conj Hfeatures _))).
  - intros r d Hrd f. unfold model_getById. rewrite !filter_In.
    intros [Hf Hk]. split; [| exact Hk]. now apply (Hkind r d).
  - intros r d Hrd w. unfold model_getWarnings. rewrite !in_flat_map.
    intros (x & Hx & Hw). exists x. split; [| exact Hw].
    now apply (@queried_grows store options r d Himported Hrd).
Qed.

(** The hypotheses of X8 hold of the model on [dag_results]. *)
Lemma queries_over_all_documents_witness :
  transitive_contract (model_getByKind dag_store)
  /\ answers_grow (model_getByKind dag_store)
                  (fun d => model_getByKind dag_store d "element"
                                            (_getDocumentQueryOptions None))
  /\ forall f,
      In f (getByKind (model_getByKind dag_store)
                      (new_AnalysisResult (model_getByKind dag_store)
                                          dag_results)
                      "element" None)
      <-> exists d,
          In d (documents dag_results)
          /\ In f (model_getByKind dag_store d "element"
                                   (_getDocumentQueryOptions None)).
Proof.
  assert (Hgrow : answers_grow
                    (model_getByKind dag_store)
                    (fun d => model_getByKind dag_store d "element"
                                              (_getDocumentQueryOptions None)))
    by apply (@model_answers_grow dag_store "element" ""
                                  (_getDocumentQueryOptions None) eq_refl).
  split; [apply model_getByKind_contract |].
  split; [exact Hgrow |].
  apply (proj1 (@queries_over_all_documents
                  (model_getByKind dag_store) (model_getById dag_store)
                  (model_getFeatures dag_store) (model_getWarnings dag_store)
                  (model_getByKind_contract dag_store)
                  dag_results "element" "" None)).
  exact Hgrow.
Defined.

(** The hypotheses of X9 hold of the model on the two orders of the
    cycle, whose search roots differ. *)
Lemma queries_order_independent_witness :
  transitive_contract (model_getByKind cycle_store)
  /\ Permutation cycle_results cycle_results_reversed
  /\ answers_grow (model_getByKind cycle_store)
                  (fun d => model_getByKind cycle_store d "import"
                                            (_getDocumentQueryOptions None))
  /\ forall f,
      In f (getByKind (model_getByKind cycle_store)
                      (new_AnalysisResult (model_getByKind cycle_store)
                                          cycle_results)
                      "import" None)
      <-> In f (getByKind (model_getByKind cycle_store)
                          (new_AnalysisResult (model_getByKind cycle_store)
                                              cycle_results_reversed)
                          "import" None).
Proof.
  assert (Hgrow : answers_grow
                    (model_getByKind cycle_store)
                    (fun d => model_getByKind cycle_store d "import"
                                              (_getDocumentQueryOptions None)))
    by apply (@model_answers_grow cycle_store "import" ""
                                  (_getDocumentQueryOptions None) eq_refl).
  split; [apply model_getByKind_contract |].
  split; [apply perm_swap |].
  split; [exact Hgrow |].
  apply (proj1 (@queries_order_independent
                  (model_getByKind cycle_store) (model_getById cycle_store)
                  (model_getFeatures cycle_store)
                  (model_getWarnings cycle_store)
                  (model_getByKind_contract cycle_store)
                  cycle_results cycle_results_reversed "import" "" None
                  (perm_swap _ _ _))).
  exact Hgrow.
Defined.

(** ** Privacy by name *)

(** The character [c] occurs in [s]. *)
Fixpoint has_char (c : ascii) (s : string) : bool :=
  match s with
  | EmptyString => false
  | String a rest => Ascii.eqb a c || has_char c rest
  end.

Lemma string_append_assoc (a b c : string) :
  ((a ++ b) ++ c = a ++ (b ++ c))%string.
Proof. induction a as [| x a IH]; simpl; [reflexivity | now rewrite IH]. Qed.

Lemma string_length_append (a b : string) :
  String.length (a ++ b) = String.length a + String.length b.
Proof. induction a as [| x a IH]; simpl; [reflexivity | now rewrite IH]. Qed.

Lemma string_drop_append (a b : string) :
  string_drop (String.length a) (a ++ b) = b.
Proof. induction a as [| x a IH]; [now destruct b | exact IH]. Qed.

Lemma lastIndexOf_from_absent (c : ascii) (s : string) (index found : Z) :
  has_char c s = false -> lastIndexOf_from c s index found = found.
Proof.
  revert index found. induction s as [| a s IH]; intros index found H;
    simpl in *; [reflexivity |].
  apply orb_false_iff in H as [Ha Hs]. rewrite Ha. now apply IH.
Qed.

Lemma lastIndexOf_from_last (c : ascii) (p seg : string) (index found : Z) :
  has_char c seg = false ->
  lastIndexOf_from c (p ++ String c seg) index found
  = (index + Z.of_nat (String.length p))%Z.
Proof.
  intros Hseg. revert index found.
  induction p as [| a p IH]; intros index found; simpl String.append;
    cbn [lastIndexOf_from].
  - rewrite Ascii.eqb_refl, lastIndexOf_from_absent by exact Hseg.
    simpl. lia.
  - rewrite IH. cbn [String.length]. lia.
Qed.

(** What follows the last dot of a name. *)
Lemma slice_after_last_dot (p seg : string) :
  has_char "." seg = false ->
  slice (p ++ "." ++ seg) (lastIndexOf (p ++ "." ++ seg) "." + 1) = seg.
Proof.
  intros Hseg. unfold lastIndexOf, slice.
  change ("." ++ seg)%string with (String "." seg).
  rewrite lastIndexOf_from_last by exact Hseg.
  rewrite string_length_append. cbn [String.length].
  destruct (Z.ltb_spec (0 + Z.of_nat (String.length p) + 1) 0) as [H | H];
    [lia |].
  rewrite Z.min_l by lia.
  replace (Z.to_nat (0 + Z.of_nat (String.length p) + 1))
    with (String.length (p ++ ".")) by (rewrite string_length_append; simpl; lia).
  change (String "." seg) with ("." ++ seg)%string.
  rewrite <- string_append_assoc. apply string_drop_append.
Qed.

Lemma slice_without_dot (name : string) :
  has_char "." name = false ->
  slice name (lastIndexOf name "." + 1) = name.
Proof.
  intros H. unfold lastIndexOf, slice.
  rewrite lastIndexOf_from_absent by exact H. simpl.
  now destruct name.
Qed.

Lemma startsWith_two_underscores (s : string) :
  startsWith s "__" = true -> startsWith s "_" = true.
Proof.
  unfold startsWith. rewrite !prefix_strip_prefix.
  destruct s as [| a s]; cbn [strip_prefix]; [discriminate |].
  destruct (Ascii.eqb "_" a); [reflexivity | discriminate].
Qed.

Lemma Set_has_In (set : list string) (x : string) :
  Set_has set x = true <-> In x set.
Proof.
  unfold Set_has. rewrite existsb_exists. split.
  - intros (y & Hy & E). apply String.eqb_eq in E. now subst.
  - intros H. exists x. split; [exact H | apply String.eqb_refl].
Qed.

Section PrivacyFacts.

Variable Annotation : Type.
Variable getPrivacy : option Annotation -> option Privacy.

(** X10.  Only what follows the last dot of a name counts: a name and its
    last segment get the same privacy. *)
Theorem getOrInferPrivacy_last_segment
        (namespace segment : string) (annotation : option Annotation)
        (defaultPrivacy : option Privacy) :
  has_char "." segment = false ->
  getOrInferPrivacy getPrivacy (namespace ++ "." ++ segment) annotation
                    defaultPrivacy
  = getOrInferPrivacy getPrivacy segment annotation defaultPrivacy.
Proof.
  intros Hsegment. unfold getOrInferPrivacy.
  now rewrite slice_after_last_dot, slice_without_dot.
Qed.

(** X11.  Without a privacy in the annotation and with the default
    ['public'], a name without dots is private exactly when it starts with
    two underscores, or ends with one and starts with none; protected
    exactly when it starts with one underscore only, or is a configuration
    property; public exactly when it has no underscore at either end and
    is no configuration property. *)
Theorem getOrInferPrivacy_by_name
        (name : string) (annotation : option Annotation) :
  getPrivacy annotation = None ->
  has_char "." name = false ->
  let privacy := getOrInferPrivacy getPrivacy name annotation None in
  (privacy = IsPrivate <->
   startsWith name "__" = true
   \/ (startsWith name "_" = false /\ endsWith name "_" = true))
  /\ (privacy = IsProtected <->
      (startsWith name "_" = true /\ startsWith name "__" = false)
      \/ (startsWith name "_" = false /\ endsWith name "_" = false
          /\ In name configurationProperties))
  /\ (privacy = IsPublic <->
      startsWith name "_" = false /\ endsWith name "_" = false
      /\ ~ In name configurationProperties).
Proof.
  intros Hnone Hdots. cbv zeta. unfold getOrInferPrivacy.
  rewrite Hnone, slice_without_dot by exact Hdots.
  pose proof (startsWith_two_underscores name) as Htwo.
  pose proof (Set_has_In configurationProperties name) as Hset.
  destruct (startsWith name "__"), (startsWith name "_"),
    (endsWith name "_"), (Set_has configurationProperties name);
    try (discriminate (Htwo eq_refl));
    repeat split; intros; try discriminate; try reflexivity;
    try tauto; intuition discriminate.
Qed.

(** X12.  Every configuration property is protected when the annotation
    gives no privacy, whatever the default and whatever it is a member
    of. *)
Theorem getOrInferPrivacy_configuration
        (namespace property : string) (annotation : option Annotation)
        (defaultPrivacy : option Privacy) :
  getPrivacy annotation = None ->
  In property configurationProperties ->
  getOrInferPrivacy getPrivacy property annotation defaultPrivacy
  = IsProtected
  /\ getOrInferPrivacy getPrivacy (namespace ++ "." ++ property) annotation
                       defaultPrivacy
     = IsProtected.
Proof.
  intros Hnone Hin.
  assert (Hdots : has_char "." property = false).
  { unfold configurationProperties in Hin. simpl in Hin.
    repeat (destruct Hin as [<- | Hin]; [reflexivity |]). contradiction. }
  unfold getOrInferPrivacy.
  rewrite Hnone, slice_after_last_dot, slice_without_dot by exact Hdots.
  unfold configurationProperties in Hin. simpl in Hin.
  repeat (destruct Hin as [<- | Hin]; [split; reflexivity |]). contradiction.
Qed.

End PrivacyFacts.

Lemma getOrInferPrivacy_last_segment_witness :
  has_char "." "_render" = false
  /\ getOrInferPrivacy (fun _ : option unit => None) ("Polymer.Base" ++ "."
                                                      ++ "_render")
                       None None
     = getOrInferPrivacy (fun _ : option unit => None) "_render" None None.
Proof.
  split; [reflexivity |].
  apply (@getOrInferPrivacy_last_segment
           unit (fun _ => None) "Polymer.Base" "_render" None None).
  reflexivity.
Defined.

Lemma getOrInferPrivacy_by_name_witness :
  has_char "." "cache_" = false
  /\ (getOrInferPrivacy (fun _ : option unit => None) "cache_" None None
      = IsPrivate
      <-> startsWith "cache_" "__" = true
          \/ (startsWith "cache_" "_" = false
              /\ endsWith "cache_" "_" = true)).
Proof.
  split; [reflexivity |].
  apply (proj1 (@getOrInferPrivacy_by_name
                  unit (fun _ => None) "cache_" None eq_refl eq_refl)).
Defined.

Lemma getOrInferPrivacy_configuration_witness :
  In "ready" configurationProperties
  /\ getOrInferPrivacy (fun _ : option unit => None) "ready" None
                       (Some IsPrivate)
     = IsProtected
  /\ getOrInferPrivacy (fun _ : option unit => None)
                       ("MyElement.prototype" ++ "." ++ "ready") None
                       (Some IsPrivate)
     = IsProtected.
Proof.
  assert (Hin : In "ready" configurationProperties) by (simpl; tauto).
  split; [exact Hin |].
  apply (@getOrInferPrivacy_configuration
           unit (fun _ => None) "MyElement.prototype" "ready" None
           (Some IsPrivate) eq_refl Hin).
Defined.

(** ** Member expressions and object keys *)

(** The expression [first.second.rest...] of identifiers. *)
Definition member_chain (first second : string) (rest : list string)
  : estree.Node :=
  fold_left
    (fun object name =>
       estree.MemberExpression object (estree.Identifier name))
    rest
    (estree.MemberExpression (estree.Identifier first)
                             (estree.Identifier second)).

Lemma last_of_snoc (l : list string) (x : string) :
  last_of (l ++ [x]) = Some x.
Proof.
  unfold last_of. rewrite length_app. simpl.
  replace (List.length l + 1 - 1) with (List.length l) by lia.
  rewrite nth_error_app2 by lia. now rewrite Nat.sub_diag.
Qed.

Lemma member_chain_snoc (first second : string) (rest : list string)
      (x : string) :
  member_chain first second (rest ++ [x])
  = estree.MemberExpression (member_chain first second rest)
                            (estree.Identifier x).
Proof. unfold member_chain. now rewrite fold_left_app. Qed.

Lemma member_chain_MemberExpression (first second : string)
      (rest : list string) :
  exists object property,
    member_chain first second rest = estree.MemberExpression object property.
Proof.
  destruct rest as [| x rest] using rev_ind.
  - now eexists _, _.
  - rewrite member_chain_snoc. now eexists _, _.
Qed.

Lemma matchesCallExpression_member_chain (rest : list string) :
  forall (expression : estree.Node) (first second : string),
    matchesCallExpression expression (first :: second :: rest) = true
    <-> expression = member_chain first second rest.
Proof.
  induction rest as [| x rest IH] using rev_ind; intros expression a b.
  - unfold member_chain. cbn [fold_left].
    destruct expression as [| | object property |];
      try (split; discriminate).
    cbn [matchesCallExpression].
    destruct property as [name | | |]; try (split; discriminate).
    change (last_of [a; b]) with (Some b). cbn [List.length Nat.eqb].
    destruct (String.eqb_spec name b) as [-> | Hname]; cbn [negb].
    + destruct object as [object_name | | o1 o2 |].
      * cbn [nth_error].
        destruct (String.eqb_spec object_name a) as [-> | Hobject].
        -- split; reflexivity.
        -- split; [discriminate | intros [= E]; contradiction].
      * split; discriminate.
      * change (Nat.ltb 2 2) with false. split; discriminate.
      * split; discriminate.
    + split; [discriminate | intros [= _ E]; congruence].
  - rewrite member_chain_snoc.
    destruct expression as [| | object property |];
      try (split; discriminate).
    cbn [matchesCallExpression].
    destruct property as [name | | |]; try (split; discriminate).
    change (a :: b :: rest ++ [x]) with ((a :: b :: rest) ++ [x]).
    rewrite last_of_snoc, removelast_last, length_app.
    cbn [List.length].
    replace (Nat.eqb (S (S (List.length rest)) + 1) 2) with false
      by (symmetry; apply Nat.eqb_neq; lia).
    replace (Nat.ltb 2 (S (S (List.length rest)) + 1)) with true
      by (symmetry; apply Nat.ltb_lt; lia).
    destruct (String.eqb_spec name x) as [-> | Hname]; cbn [negb].
    + destruct object as [| | o1 o2 |].
      * split; [discriminate |]. intros [= E].
        destruct (member_chain_MemberExpression a b rest) as (o & p & Ho).
        congruence.
      * split; [discriminate |]. intros [= E].
        destruct (member_chain_MemberExpression a b rest) as (o & p & Ho).
        congruence.
      * rewrite IH. split; [now intros -> | now intros [= ->]].
      * split; [discriminate |]. intros [= E].
        destruct (member_chain_MemberExpression a b rest) as (o & p & Ho).
        congruence.
    + split; [discriminate | intros [= _ E]; congruence].
Qed.

Lemma concat_snoc (sep : string) (l : list string) (x : string) :
  l <> [] ->
  String.concat sep (l ++ [x]) = (String.concat sep l ++ sep ++ x)%string.
Proof.
  induction l as [| a l IH]; intros Hne; [contradiction |].
  destruct l as [| b l]; [reflexivity |].
  change (String.concat sep ((a :: b :: l) ++ [x]))
    with (a ++ sep ++ String.concat sep ((b :: l) ++ [x]))%string.
  rewrite IH by discriminate.
  change (String.concat sep (a :: b :: l))
    with (a ++ sep ++ String.concat sep (b :: l))%string.
  now rewrite !string_append_assoc.
Qed.

Lemma objectKeyToString_member_chain (first second : string)
      (rest : list string) :
  objectKeyToString (member_chain first second rest)
  = Some (String.concat "." (first :: second :: rest)).
Proof.
  induction rest as [| x rest IH] using rev_ind.
  - reflexivity.
  - rewrite member_chain_snoc. cbn [objectKeyToString]. rewrite IH.
    change (first :: second :: rest ++ [x])
      with ((first :: second :: rest) ++ [x]).
    rewrite concat_snoc by discriminate. reflexivity.
Qed.

(** X13.  For a path of two names or more, [matchesCallExpression] is true
    of exactly one expression: the member expression that reads the names
    of the path, identifier by identifier, from left to right. *)
Theorem matchesCallExpression_exact
        (expression : estree.Node) (path : list string) :
  2 <= List.length path ->
  matchesCallExpression expression path = true
  <-> exists first second rest,
      path = first :: second :: rest
      /\ expression = member_chain first second rest.
Proof.
  intros Hlen. destruct path as [| a [| b rest]]; simpl in Hlen; try lia.
  rewrite matchesCallExpression_member_chain. split.
  - intros ->. now exists a, b, rest.
  - intros (a' & b' & rest' & [= <- <- <-] & ->). reflexivity.
Qed.

(** X14.  An expression that [matchesCallExpression] accepts for a path has
    the path, joined with dots, as the name [objectKeyToString] gives
    it. *)
Theorem matchesCallExpression_objectKeyToString
        (expression : estree.Node) (path : list string) :
  2 <= List.length path ->
  matchesCallExpression expression path = true ->
  objectKeyToString expression = Some (String.concat "." path).
Proof.
  intros Hlen. destruct path as [| a [| b rest]]; simpl in Hlen; try lia.
  rewrite matchesCallExpression_member_chain. intros ->.
  apply objectKeyToString_member_chain.
Qed.

(** [Polymer.Base.extend] *)
Definition Polymer_Base_extend : estree.Node :=
  estree.MemberExpression
    (estree.MemberExpression (estree.Identifier "Polymer")
                             (estree.Identifier "Base"))
    (estree.Identifier "extend").

Lemma matchesCallExpression_exact_witness :
  2 <= List.length ["Polymer"; "Base"; "extend"]
  /\ (matchesCallExpression Polymer_Base_extend ["Polymer"; "Base"; "extend"]
      = true
      <-> exists first second rest,
          ["Polymer"; "Base"; "extend"] = first :: second :: rest
          /\ Polymer_Base_extend = member_chain first second rest).
Proof.
  split; [simpl; lia |].
  apply (@matchesCallExpression_exact
           Polymer_Base_extend ["Polymer"; "Base"; "extend"]).
  simpl. lia.
Defined.

Lemma matchesCallExpression_objectKeyToString_witness :
  2 <= List.length ["Polymer"; "Base"; "extend"]
  /\ matchesCallExpression Polymer_Base_extend ["Polymer"; "Base"; "extend"]
     = true
  /\ objectKeyToString Polymer_Base_extend = Some "Polymer.Base.extend".
Proof.
  split; [simpl; lia |]. split; [reflexivity |].
  apply (@matchesCallExpression_objectKeyToString
           Polymer_Base_extend ["Polymer"; "Base"; "extend"]);
    [simpl; lia | reflexivity].
Defined.

(** X15.  [getPropertyValue] returns the value of the first property whose
    key reads as the name, whatever follows it, and [undefined] exactly
    when no property has a key that reads as the name. *)
Theorem getPropertyValue_first (name : string) :
  (forall properties,
      getPropertyValue properties name = None <->
      forall property,
        In property properties ->
        objectKeyToString (estree.key property) <> Some name)
  /\ (forall earlier property later,
         (forall other, In other earlier ->
                        objectKeyToString (estree.key other) <> Some name) ->
         objectKeyToString (estree.key property) = Some name ->
         getPropertyValue (earlier ++ property :: later) name
         = Some (estree.value property)).
Proof.
  split.
  - induction properties as [| p properties IH]; simpl.
    + split; [intros _ q [] | reflexivity].
    + destruct (objectKeyToString (estree.key p)) as [text |] eqn:Ekey.
      * destruct (String.eqb_spec text name) as [-> | Hne].
        -- split; [discriminate |]. intros H. exfalso.
           apply (H p); [now left | exact Ekey].
        -- rewrite IH. split.
           ++ intros H q [<- | Hq]; [congruence | now apply H].
           ++ intros H q Hq. apply H. now right.
      * rewrite IH. split.
        -- intros H q [<- | Hq]; [congruence | now apply H].
        -- intros H q Hq. apply H. now right.
  - induction earlier as [| q earlier IH]; intros property later Hnone Hkey;
      simpl.
    + now rewrite Hkey, String.eqb_refl.
    + assert (Hq : objectKeyToString (estree.key q) <> Some name)
        by (apply Hnone; now left).
      assert (Hrest : getPropertyValue (earlier ++ property :: later) name
                      = Some (estree.value property)).
      { apply IH; [| exact Hkey]. intros other Hother. apply Hnone.
        now right. }
      destruct (objectKeyToString (estree.key q)) as [text |];
        [| exact Hrest].
      destruct (String.eqb_spec text name) as [-> | Hne];
        [contradiction | exact Hrest].
Qed.

(** ** Closure types *)

Lemma strip_prefix_Some (text s rest : string) :
  strip_prefix text s = Some rest <-> s = (text ++ rest)%string.
Proof.
  revert s. induction text as [| a text IH]; intros s; simpl.
  - split; [now intros [= ->] | now intros ->].
  - destruct s as [| b s]; [split; discriminate |].
    destruct (Ascii.eqb_spec a b) as [-> | Hab].
    + rewrite IH. split; [now intros -> | now intros [= ->]].
    + split; [discriminate | intros [= E _]; congruence].
Qed.

Lemma string_append_empty (s : string) : (s ++ "")%string = s.
Proof. induction s; simpl; congruence. Qed.

Lemma strip_prefix_self (text : string) : strip_prefix text text = Some "".
Proof. apply strip_prefix_Some. now rewrite string_append_empty. Qed.

(** [/text$/] finds a match exactly in the strings that end in [text]. *)
Lemma search_ends_in (text s : string) (index : nat) :
  search (Concat (Literal text) AssertEnd) index s = true
  <-> exists start, s = (start ++ text)%string.
Proof.
  revert index. induction s as [| c s IH]; intros index; cbn [search matches].
  - rewrite orb_false_r.
    destruct (strip_prefix text "") as [rest |] eqn:E.
    + apply strip_prefix_Some in E.
      destruct text; [| discriminate]. simpl in E. subst rest.
      split; [intros _; now exists "" | reflexivity].
    + split; [discriminate |]. intros (start & Hs).
      destruct start; [| discriminate]. simpl in Hs. subst text.
      discriminate.
  - rewrite orb_true_iff, IH. split.
    + intros [H | (start & ->)].
      * destruct (strip_prefix text (String c s)) as [rest |] eqn:E;
          [| discriminate].
        apply strip_prefix_Some in E.
        destruct rest; [| discriminate].
        exists "". simpl. now rewrite E, string_append_empty.
      * now exists (String c start).
    + intros ([| c' start] & Hs).
      * left. simpl in Hs. now rewrite Hs, strip_prefix_self.
      * right. injection Hs as -> ->. now exists start.
Qed.

Lemma substr0_append (a b : string) :
  substr0 (a ++ b) (String.length (a ++ b) - String.length b) = a.
Proof.
  rewrite string_length_append, Nat.add_sub. unfold substr0.
  induction a as [| x a IH]; simpl.
  - now destruct b.
  - now rewrite IH.
Qed.

Lemma closureType_Expression {SourceRange ParsedDocument : Type}
      (sourceRange : SourceRange) (document : ParsedDocument)
      (node : estree.Node) (name : string) :
  node_type node = (name ++ "Expression")%string ->
  closureType node sourceRange document = inl name.
Proof.
  intros Htype. unfold closureType.
  assert (Htest : test ENDS_IN_EXPRESSION (node_type node) = true).
  { apply search_ends_in. now exists name. }
  rewrite Htest, Htype. f_equal.
  apply (substr0_append name "Expression").
Qed.

(** X16.  [closureType] gives a node whose type ends in [Expression] the
    type without that ending; it maps the identifiers [Boolean], [Number]
    and [String] to the primitive types and any other identifier to its
    name; it throws only for a node that is neither an identifier nor a
    literal and whose type does not end in [Expression], and the warning
    thrown names that type. *)
Theorem closureType_cases {SourceRange ParsedDocument : Type}
        (sourceRange : SourceRange) (document : ParsedDocument) :
  (forall node name,
      node_type node = (name ++ "Expression")%string ->
      closureType node sourceRange document = inl name)
  /\ (closureType (estree.Identifier "Boolean") sourceRange document
      = inl "boolean"
      /\ closureType (estree.Identifier "Number") sourceRange document
         = inl "number"
      /\ closureType (estree.Identifier "String") sourceRange document
         = inl "string"
      /\ forall name,
          name <> "Boolean" -> name <> "Number" -> name <> "String" ->
          closureType (estree.Identifier name) sourceRange document
          = inl name)
  /\ (forall value,
         closureType (estree.Literal value) sourceRange document
         = inl (typeof value))
  /\ (forall node warning,
         closureType node sourceRange document = inr warning ->
         (exists type, node = estree.OtherNode type
                       /\ forall name, type <> (name ++ "Expression")%string)
         /\ scan_code warning = "no-closure-type"
         /\ scan_message warning
            = ("Unable to determine closure type for expression of type "
               ++ node_type node)%string
         /\ scan_severity warning = WARNING
         /\ scan_sourceRange warning = sourceRange
         /\ scan_parsedDocument warning = document).
Proof.
  refine (conj _ (conj _ (conj _ _))).
  - intros node name. apply closureType_Expression.
  - repeat split. intros name H1 H2 H3. unfold closureType.
    cbn [node_type].
    change (test ENDS_IN_EXPRESSION "Identifier") with false. cbv iota.
    unfold CLOSURE_CONSTRUCTOR_MAP. cbn [Map_get_string].
    apply not_eq_sym, String.eqb_neq in H1, H2, H3.
    now rewrite H1, H2, H3.
  - intros value. reflexivity.
  - intros node warning. unfold closureType.
    destruct (test ENDS_IN_EXPRESSION (node_type node)) eqn:Htest;
      [discriminate |].
    destruct node as [name | value | object property | type];
      try discriminate.
    intros [= <-]. cbn [node_type] in *.
    split; [| repeat split].
    exists type. split; [reflexivity |]. intros name ->.
    assert (H : test ENDS_IN_EXPRESSION (name ++ "Expression") = true)
      by (apply search_ends_in; now exists name).
    congruence.
Qed.

(** X20.  Of the nodes that [isFunctionType] accepts, [closureType] types
    an arrow function [ArrowFunction] and a function expression [Function],
    and throws for a function declaration. *)
Theorem isFunctionType_closureType {SourceRange ParsedDocument : Type}
        (sourceRange : SourceRange) (document : ParsedDocument)
        (node : estree.Node) :
  isFunctionType node = true ->
  (node_type node = "ArrowFunctionExpression"
   /\ closureType node sourceRange document = inl "ArrowFunction")
  \/ (node_type node = "FunctionExpression"
      /\ closureType node sourceRange document = inl "Function")
  \/ (node_type node = "FunctionDeclaration"
      /\ exists warning,
          closureType node sourceRange document = inr warning
          /\ scan_code warning = "no-closure-type").
Proof.
  unfold isFunctionType. intros H.
  apply orb_true_iff in H as [H | H];
    [apply orb_true_iff in H as [H | H] |];
    apply String.eqb_eq in H.
  - left. split; [exact H |].
    now apply (closureType_Expression _ _ node "ArrowFunction").
  - right. left. split; [exact H |].
    now apply (closureType_Expression _ _ node "Function").
  - right. right. split; [exact H |].
    destruct node as [name | value | object property | type];
      try discriminate.
    cbn [node_type] in H. subst type. eexists. split; reflexivity.
Qed.

Lemma isFunctionType_closureType_witness :
  isFunctionType (estree.OtherNode "FunctionExpression") = true
  /\ ((node_type (estree.OtherNode "FunctionExpression")
       = "ArrowFunctionExpression"
       /\ closureType (estree.OtherNode "FunctionExpression") tt tt
          = inl "ArrowFunction")
      \/ (node_type (estree.OtherNode "FunctionExpression")
          = "FunctionExpression"
          /\ closureType (estree.OtherNode "FunctionExpression") tt tt
             = inl "Function")
      \/ (node_type (estree.OtherNode "FunctionExpression")
          = "FunctionDeclaration"
          /\ exists warning,
              closureType (estree.OtherNode "FunctionExpression") tt tt
              = inr warning
              /\ scan_code warning = "no-closure-type")).
Proof.
  split; [reflexivity |].
  apply (@isFunctionType_closureType
           unit unit tt tt (estree.OtherNode "FunctionExpression")).
  reflexivity.
Defined.

(** ** The comment attached to a node *)





(** ** The search roots, further *)

Lemma Set_delete_NoDup {A : Type}
      (eq_dec : forall x y : A, {x = y} + {x <> y}) (x : A) (s : list A) :
  NoDup s -> NoDup (Set_delete eq_dec x s).
Proof.
  unfold Set_delete. induction 1 as [| a s Ha Hs IH]; simpl.
  - constructor.
  - destruct (eq_dec x a); [exact IH |].
    constructor; [| exact IH]. intros H. apply in_remove in H as [H _].
    contradiction.
Qed.

Lemma trimImported_NoDup (doc : DocRef) (imports : list Feature)
      (roots : list DocRef) :
  NoDup roots -> NoDup (trimImported doc imports roots).
Proof.
  unfold trimImported. revert roots.
  induction imports as [| imprt imports IH]; intros roots Hnd;
    cbn [fold_left]; [exact Hnd |].
  apply IH. destruct (document imprt) as [t |]; [| exact Hnd].
  destruct (DocRef_eq_dec t doc); [exact Hnd |].
  now apply Set_delete_NoDup.
Qed.

Lemma trimRoots_NoDup
      (Document_getByKind :
         DocRef -> string -> DocumentQueryOptions -> list Feature)
      (pending roots : list DocRef) :
  NoDup roots -> NoDup (trimRoots Document_getByKind pending roots).
Proof.
  revert roots. induction pending as [| doc rest IH]; intros roots Hnd;
    simpl; [exact Hnd |].
  destruct (in_dec DocRef_eq_dec doc roots); [| now apply IH].
  now apply IH, trimImported_NoDup.
Qed.

Lemma documents_In (results : Results) (d : DocRef) :
  In d (documents results) <-> exists url, In (url, IsDocument d) results.
Proof.
  unfold documents, Map_values. rewrite in_flat_map. split.
  - intros (r & Hr & Hd). apply in_map_iff in Hr as ([url v] & <- & Hin).
    simpl in Hd. destruct v as [d' | w]; [| contradiction].
    destruct Hd as [<- | []]. now exists url.
  - intros (url & Hin). exists (IsDocument d). split; [| now left].
    apply in_map_iff. now exists (url, IsDocument d).
Qed.

(** X18.  Whatever the documents answer, the search roots are Documents
    that the mapping holds, each once; no Warning is a root. *)
Theorem searchRoots_of_the_mapping
        (Document_getByKind :
           DocRef -> string -> DocumentQueryOptions -> list Feature)
        (results : Results) :
  let roots :=
    _searchRoots (new_AnalysisResult Document_getByKind results) in
  NoDup roots
  /\ forall root, In root roots ->
                  exists url, In (url, IsDocument root) results.
Proof.
  cbv zeta. split.
  - cbn [_searchRoots new_AnalysisResult].
    apply trimRoots_NoDup, Set_new_NoDup.
  - intros root Hroot. apply documents_In.
    eapply searchRoots_documents. exact Hroot.
Qed.

(** X19.  No search root is superfluous, and a project with a Document has
    a root: under the contract of the documents' queries no root is
    reachable from another root, and the root set is empty only when the
    mapping holds no Document. *)
Theorem searchRoots_no_superfluous_root
        (Document_getByKind :
           DocRef -> string -> DocumentQueryOptions -> list Feature)
        (results : Results) :
  transitive_contract Document_getByKind ->
  let roots :=
    _searchRoots (new_AnalysisResult Document_getByKind results) in
  (forall r t, In r roots -> In t roots ->
               reaches Document_getByKind r t -> t = r)
  /\ (roots = [] <-> documents results = []).
Proof.
  intros contract. cbv zeta. split.
  - intros r t Hr Ht Hreach.
    destruct (reaches_eq_or_clos_trans Hreach) as [E | Hplus];
      [now symmetry |].
    eapply searchRoots_independent; eauto.
  - split.
    + intros Hroots. destruct (documents results) as [| d ds] eqn:Ed;
        [reflexivity |].
      destruct (searchRoots_cover contract results d) as (r & Hr & _).
      * rewrite Ed. now left.
      * rewrite Hroots in Hr. contradiction.
    + intros Hdocs. cbn [_searchRoots new_AnalysisResult].
      now rewrite Hdocs.
Qed.

Lemma searchRoots_no_superfluous_root_witness :
  transitive_contract (model_getByKind entry_store)
  /\ (forall r t,
         In r (_searchRoots
                 (new_AnalysisResult (model_getByKind entry_store)
                                     entry_results)) ->
         In t (_searchRoots
                 (new_AnalysisResult (model_getByKind entry_store)
                                     entry_results)) ->
         reaches (model_getByKind entry_store) r t -> t = r)
  /\ (_searchRoots
        (new_AnalysisResult (model_getByKind entry_store) entry_results)
      = []
      <-> documents entry_results = []).
Proof.
  split; [apply model_getByKind_contract |].
  apply (@searchRoots_no_superfluous_root
           (model_getByKind entry_store) entry_results
           (model_getByKind_contract entry_store)).
Defined.
